(** * connstate: the epoll wait loop of [epoll_wait_cgo.c]

    A shallow embedding of [cgo_epoll_wait_loop] and of the three atomic
    operations and the one system call it performs, followed by the
    properties of the loop: which state transitions it makes, when it
    acknowledges a batch, and when it returns.

    The embedding follows the one thread that runs the loop. Every
    operation on shared memory is atomic and is recorded in a log, in
    program order; what the polling set reports is given in advance, wait
    by wait. The statements about one operation or one event hold in every
    world, so in whatever memory the other threads have left; the other
    threads themselves are not part of the embedding. *)

From Stdlib Require Import ZArith List Lia.
From stdpp Require Import base decidable countable gmap list.

Local Open Scope Z_scope.

(** * The embedding *)

(** ** Constants of the source and of the system headers *)

Definition MAX_EVENTS : Z := 1024.

Definition STATE_OK : Z := 0.
Definition STATE_REMOTE_CLOSED : Z := 1.
Definition STATE_CLOSED : Z := 2.

(** [<sys/epoll.h>] and [<errno.h>] on Linux. *)
Definition EPOLLIN : Z := 0x001.
Definition EPOLLERR : Z := 0x008.
Definition EPOLLHUP : Z := 0x010.
Definition EPOLLRDHUP : Z := 0x2000.
Definition EINTR : Z := 4.
Definition EINVAL : Z := 22.

Definition NULL : Z := 0.

(** ** Data *)

(** [struct epoll_event]: the event mask and the [data.ptr] member of the
    user-data union. *)
Record epoll_event := { events : Z; data_ptr : Z }.

(** Memory is addressed through the type the source casts a pointer to:
    [Slot a] is the [atomic_uintptr_t] at [a] (the [fd.conn] field that
    [ev->data.ptr] points to), [ConnFd c] and [ConnState c] are the fields
    [fd] and [state] of the [conn_stater_t] at [c], and [Ack a] is the
    [atomic_int_least32_t] at [a]. *)
Inductive loc :=
| Slot (a : Z)
| ConnFd (c : Z)
| ConnState (c : Z)
| Ack (a : Z).

#[global] Instance loc_eq_dec : EqDecision loc.
Proof. solve_decision. Defined.

Definition loc_code (l : loc) : Z + Z + (Z + Z) :=
  match l with
  | Slot a => inl (inl a)
  | ConnFd c => inl (inr c)
  | ConnState c => inr (inl c)
  | Ack a => inr (inr a)
  end.

Definition loc_decode (s : Z + Z + (Z + Z)) : loc :=
  match s with
  | inl (inl a) => Slot a
  | inl (inr c) => ConnFd c
  | inr (inl c) => ConnState c
  | inr (inr a) => Ack a
  end.

#[global] Instance loc_countable : Countable loc.
Proof. refine (inj_countable' loc_code loc_decode _). by intros []. Defined.

(** What the thread does to the outside, in program order. [EpollWait]
    carries the three arguments of the call that the loop chooses and the
    value the call returned; [Cas] carries the value found in the cell. *)
Inductive action :=
| EpollWait (epfd maxevents timeout ret : Z)
| Load (l : loc) (v : Z)
| Cas (l : loc) (expected desired found : Z)
| Store (l : loc) (v : Z).

(** What the polling set has in store for the successive waits: a set of
    ready descriptors, or a failure of the wait with its [errno]. *)
Inductive kevent :=
| Ready (evs : list epoll_event)
| Failure (e : Z).

Record world := World {
  mem : gmap loc Z;
  kernel : list kevent;
  errno : Z;
  log : list action
}.

Definition record (a : action) (w : world) : world :=
  World (mem w) (kernel w) (errno w) (log w ++ [a]).

Definition poke (l : loc) (v : Z) (w : world) : world :=
  World (<[l := v]> (mem w)) (kernel w) (errno w) (log w).

(** ** The monad of the embedding

    A computation either yields a value, or parks the thread for ever in a
    wait that nothing will wake ([Blocked]), or touches memory that is not
    there ([Fault], undefined behaviour in C). *)
Inductive outcome (A : Type) :=
| Ok (a : A) (w : world)
| Blocked (w : world)
| Fault (w : world).
Arguments Ok {A} a w.
Arguments Blocked {A} w.
Arguments Fault {A} w.

Definition M (A : Type) : Type := world -> outcome A.

Definition ret {A} (a : A) : M A := fun w => Ok a w.

Definition bind {A B} (c : M A) (k : A -> M B) : M B := fun w =>
  match c w with
  | Ok a w' => k a w'
  | Blocked w' => Blocked w'
  | Fault w' => Fault w'
  end.

Notation "x <- c ;; k" := (bind c (fun x => k))
  (at level 100, c at next level, right associativity).
Notation "c ;;; k" := (bind c (fun _ => k))
  (at level 100, right associativity).

Definition world_of {A} (o : outcome A) : world :=
  match o with
  | Ok _ w | Blocked w | Fault w => w
  end.

(** ** The primitives *)

Definition atomic_load (l : loc) : M Z := fun w =>
  match mem w !! l with
  | Some v => Ok v (record (Load l v) w)
  | None => Fault w
  end.

Definition atomic_store (l : loc) (v : Z) : M unit := fun w =>
  match mem w !! l with
  | Some _ => Ok tt (record (Store l v) (poke l v w))
  | None => Fault w
  end.

(** The strong compare-exchange: the cell is written only when it holds
    [expected]. The source passes a compound literal as the expected
    object and drops the result. *)
Definition atomic_compare_exchange_strong (l : loc) (expected desired : Z)
  : M bool := fun w =>
  match mem w !! l with
  | Some found =>
      if decide (found = expected)
      then Ok true (record (Cas l expected desired found) (poke l desired w))
      else Ok false (record (Cas l expected desired found) w)
  | None => Fault w
  end.

Definition get_errno : M Z := fun w => Ok (errno w) w.

(** [epoll_wait(epfd, events, maxevents, timeout)], the system call, as
    its manual page has it: returns the number of events written to the
    buffer together with those events, or -1 with [errno] set, EINVAL when
    [maxevents] is not positive. At most [maxevents] ready descriptors are
    reported by one call; the others stay ready for the next one. With
    nothing in store the call waits, for ever when [timeout] is -1. *)
Definition epoll_wait (epfd maxevents timeout : Z)
  : M (Z * list epoll_event) := fun w =>
  if decide (maxevents <= 0) then
    Ok (-1, []) (record (EpollWait epfd maxevents timeout (-1))
                   (World (mem w) (kernel w) EINVAL (log w)))
  else
    match kernel w with
    | [] =>
        if decide (timeout = -1) then Blocked w
        else Ok (0, []) (record (EpollWait epfd maxevents timeout 0) w)
    | Failure e :: k =>
        Ok (-1, []) (record (EpollWait epfd maxevents timeout (-1))
                       (World (mem w) k e (log w)))
    | Ready evs :: k =>
        let cap := Z.to_nat maxevents in
        let got := take cap evs in
        let k' := if decide (length evs <= cap)%nat then k
                  else Ready (drop cap evs) :: k in
        let n := Z.of_nat (length got) in
        Ok (n, got) (record (EpollWait epfd maxevents timeout n)
                       (World (mem w) k' (errno w) (log w)))
    end.

(** ** The loop *)

Definition hup_mask : Z := Z.lor (Z.lor EPOLLHUP EPOLLRDHUP) EPOLLERR.

(** The body of the [for] loop, for the event [ev]. *)
Definition handle_event (ev : epoll_event) : M unit :=
  let conn_ptr_field := data_ptr ev in
  conn_ptr <- atomic_load (Slot conn_ptr_field) ;;
  if decide (conn_ptr = NULL) then ret tt
  else
    let conn := conn_ptr in
    if decide (Z.land (events ev) hup_mask <> 0) then
      atomic_compare_exchange_strong (ConnState conn)
        STATE_OK STATE_REMOTE_CLOSED ;;;
      ret tt
    else ret tt.

(** [for (int i = 0; i < n; i++)] over the first [n] events of the buffer. *)
Fixpoint for_events (evs : list epoll_event) : M unit :=
  match evs with
  | [] => ret tt
  | ev :: rest => handle_event ev ;;; for_events rest
  end.

(** The body of [while (1)]: [Some e] stands for [return e], [None] for
    reaching the end of the body or [continue]. *)
Definition loop_body (epfd freeack_ptr : Z) : M (option Z) :=
  r <- epoll_wait epfd MAX_EVENTS (-1) ;;
  let n := fst r in
  if decide (n < 0) then
    e <- get_errno ;;
    if decide (e = EINTR) then ret None
    else ret (Some e)
  else
    for_events (take (Z.to_nat n) (snd r)) ;;;
    atomic_store (Ack freeack_ptr) 1 ;;;
    ret None.

(** How a call of [cgo_epoll_wait_loop] stands after a number of rounds of
    its [while (1)]. *)
Inductive status :=
| Returned (e : Z) (w : world)
| Parked (w : world)
| Crashed (w : world)
| Looping (w : world).

(** [cgo_epoll_wait_loop], observed for [rounds] rounds of the loop. The
    loop has no [break], so the only way out is the [return errno] of the
    body; the [return 0] after the loop has no counterpart. *)
Fixpoint cgo_epoll_wait_loop (rounds : nat) (epfd freeack_ptr : Z)
  (w : world) : status :=
  match rounds with
  | O => Looping w
  | S rounds' =>
      match loop_body epfd freeack_ptr w with
      | Ok None w' => cgo_epoll_wait_loop rounds' epfd freeack_ptr w'
      | Ok (Some e) w' => Returned e w'
      | Blocked w' => Parked w'
      | Fault w' => Crashed w'
      end
  end.

Definition status_world (s : status) : world :=
  match s with
  | Returned _ w | Parked w | Crashed w | Looping w => w
  end.

(** ** The scenario of three registered descriptors *)

Module Scenario.
Definition slotA : Z := 0x1000.
Definition slotB : Z := 0x1008.
Definition slotC : Z := 0x1010.
Definition cellA : Z := 0x2000.
Definition cellB : Z := 0x2010.
Definition cellC : Z := 0x2020.
Definition ack : Z := 0x3000.

Definition memory : gmap loc Z :=
  <[Slot slotA := cellA]> (<[Slot slotB := cellB]> (<[Slot slotC := cellC]>
  (<[ConnState cellA := STATE_OK]> (<[ConnState cellB := STATE_OK]>
  (<[ConnState cellC := STATE_CLOSED]>
  (<[ConnFd cellA := 7]> (<[ConnFd cellB := 8]> (<[ConnFd cellC := 9]>
  (<[Ack ack := 0]> ∅))))))))).

Definition batch : list epoll_event :=
  [ {| events := EPOLLHUP; data_ptr := slotA |};
    {| events := EPOLLHUP; data_ptr := slotB |};
    {| events := EPOLLIN; data_ptr := slotC |} ].

Definition start : world := World memory [Ready batch] 0 [].
End Scenario.

(** * Notions for the properties *)

(** ** Reading the log *)

(** The cell an action writes and the value it leaves there. A
    compare-exchange writes only when it found what it expected. *)
Definition writes (a : action) : option (loc * Z) :=
  match a with
  | Store l v => Some (l, v)
  | Cas l expected desired found =>
      if decide (found = expected) then Some (l, desired) else None
  | _ => None
  end.

(** The cell an action reads. *)
Definition reads (a : action) : option loc :=
  match a with
  | Load l _ => Some l
  | Cas l _ _ _ => Some l
  | _ => None
  end.

Definition replay1 (m : gmap loc Z) (a : action) : gmap loc Z :=
  match writes a with
  | Some (l, v) => <[l := v]> m
  | None => m
  end.

(** The memory after the writes of [acts], in order. *)
Definition replay (acts : list action) (m : gmap loc Z) : gmap loc Z :=
  foldl replay1 m acts.

(** An action agrees with the memory it is done on: it read what was
    there, and the cell it touches exists. *)
Definition sees (m : gmap loc Z) (a : action) : Prop :=
  match a with
  | EpollWait _ _ _ _ => True
  | Load l v => m !! l = Some v
  | Cas l _ _ found => m !! l = Some found
  | Store l _ => is_Some (m !! l)
  end.

Fixpoint coherent (acts : list action) (m : gmap loc Z) : Prop :=
  match acts with
  | [] => True
  | a :: rest => sees m a /\ coherent rest (replay1 m a)
  end.

(** [w'] is [w] after the thread did [acts], each on the memory the ones
    before it left, and nothing else to memory. *)
Definition did (acts : list action) (w w' : world) : Prop :=
  log w' = log w ++ acts
  /\ mem w' = replay acts (mem w)
  /\ coherent acts (mem w).

(** The actions of a call with arguments [epfd] and [freeack_ptr]. *)
Definition loop_action (epfd freeack_ptr : Z) (a : action) : Prop :=
  match a with
  | EpollWait e maxevents timeout n =>
      e = epfd /\ maxevents = MAX_EVENTS /\ timeout = -1
      /\ -1 <= n <= MAX_EVENTS
  | Load (Slot _) _ => True
  | Cas (ConnState _) expected desired _ =>
      expected = STATE_OK /\ desired = STATE_REMOTE_CLOSED
  | Store (Ack a) v => a = freeack_ptr /\ v = 1
  | _ => False
  end.

(** The one transition of a state cell. *)
Definition marks (m m' : gmap loc Z) : Prop :=
  forall c,
    m' !! ConnState c = m !! ConnState c
    \/ (m !! ConnState c = Some STATE_OK
        /\ m' !! ConnState c = Some STATE_REMOTE_CLOSED).

(** [w'] comes from [w] by actions that all satisfy [P]. *)
Definition doing (P : action -> Prop) (w w' : world) : Prop :=
  exists acts, did acts w w' /\ Forall P acts.

(** [w'] comes from [w] by actions of the loop. *)
Definition follows (epfd freeack_ptr : Z) : world -> world -> Prop :=
  doing (loop_action epfd freeack_ptr).

(** The actions of the handling of an event. *)
Definition event_action (a : action) : Prop :=
  match a with
  | Load (Slot _) _ => True
  | Cas (ConnState _) expected desired _ =>
      expected = STATE_OK /\ desired = STATE_REMOTE_CLOSED
  | _ => False
  end.

(** What it means for the thread to have done nothing to the state cells
    between [w] and [w'] but mark some of them: cell by cell the state is
    the same or went from OK to REMOTE_CLOSED, a state other than OK is
    still there, and every action of the log on a state cell is a
    compare-exchange from OK to REMOTE_CLOSED. *)
Definition only_marks (w w' : world) : Prop :=
  marks (mem w) (mem w')
  /\ (forall c s, mem w !! ConnState c = Some s -> s <> STATE_OK ->
        mem w' !! ConnState c = Some s)
  /\ exists acts, did acts w w'
       /\ forall a, a ∈ acts ->
            (forall c e d f, a = Cas (ConnState c) e d f ->
               e = STATE_OK /\ d = STATE_REMOTE_CLOSED)
            /\ (forall c v, writes a = Some (ConnState c, v) ->
                  a = Cas (ConnState c) STATE_OK STATE_REMOTE_CLOSED STATE_OK)
            /\ (forall c, writes a <> Some (ConnState c, STATE_CLOSED)).

(** ** The worlds a wait leaves *)

Definition failed_wait (epfd e : Z) (k : list kevent) (w : world) : world :=
  World (mem w) k e (log w ++ [EpollWait epfd MAX_EVENTS (-1) (-1)]).

(** The world after [j] interrupted waits in a row. *)
Definition interrupted (j : nat) (epfd : Z) (k : list kevent) (w : world)
  : world :=
  World (mem w) k (if decide (j = 0%nat) then errno w else EINTR)
    (log w ++ replicate j (EpollWait epfd MAX_EVENTS (-1) (-1))).

(** The batch one wait reports out of the ready set [evs], and what the
    polling set is left with. *)
Definition batch_of (evs : list epoll_event) : list epoll_event :=
  take (Z.to_nat MAX_EVENTS) evs.

Definition kernel_after (evs : list epoll_event) (k : list kevent)
  : list kevent :=
  if decide (length evs <= Z.to_nat MAX_EVENTS)%nat then k
  else Ready (drop (Z.to_nat MAX_EVENTS) evs) :: k.

Arguments batch_of : simpl never.
Arguments kernel_after : simpl never.

Definition waited (epfd : Z) (evs : list epoll_event) (k : list kevent)
  (w : world) : world :=
  World (mem w) (kernel_after evs k) (errno w)
    (log w ++ [EpollWait epfd MAX_EVENTS (-1)
                 (Z.of_nat (length (batch_of evs)))]).

(** ** What is in store

    A failure that is still to come was there from the start. *)
Definition no_new_failure (w w' : world) : Prop :=
  forall e, Failure e ∈ kernel w' -> Failure e ∈ kernel w.

(** Nothing but signals and ready descriptors is in store. *)
Definition calm (k : kevent) : Prop :=
  match k with
  | Failure e => e = EINTR
  | Ready _ => True
  end.

(** A failed wait sets [errno] to a positive value. *)
Definition errno_set (k : kevent) : Prop :=
  match k with
  | Failure e => 0 < e
  | Ready _ => True
  end.

(** ** Events that signal a close *)

(** The event carries at least one of EPOLLHUP, EPOLLRDHUP, EPOLLERR. *)
Definition signals_close (ev : epoll_event) : Prop :=
  Z.land (events ev) EPOLLHUP <> 0
  \/ Z.land (events ev) EPOLLRDHUP <> 0
  \/ Z.land (events ev) EPOLLERR <> 0.

(** The world after the handling of an event that signals one of the
    three, through a slot that holds [c], on a cell in state [s]. *)
Definition closed_by (ev : epoll_event) (c s : Z) (w : world) : world :=
  World
    (if decide (s = STATE_OK)
     then <[ConnState c := STATE_REMOTE_CLOSED]> (mem w) else mem w)
    (kernel w) (errno w)
    (log w ++ [Load (Slot (data_ptr ev)) c;
               Cas (ConnState c) STATE_OK STATE_REMOTE_CLOSED s]).

(** The log of hang-ups delivered again, to a cell found in state [s]. *)
Definition redelivered (c s : Z) (evs : list epoll_event) : list action :=
  concat (map (fun e => [Load (Slot (data_ptr e)) c;
                         Cas (ConnState c) STATE_OK STATE_REMOTE_CLOSED s])
            evs).

(** ** Memory that is there

    What registration promises: the user data of an event is the address of
    a slot, and the slot holds null or the address of a state cell. *)
Definition mapped (m : gmap loc Z) (ev : epoll_event) : Prop :=
  exists p, m !! Slot (data_ptr ev) = Some p
            /\ (p = NULL \/ is_Some (m !! ConnState p)).

(** Slots hold what they held and no cell has gone. *)
Definition shape (m m' : gmap loc Z) : Prop :=
  (forall a, m' !! Slot a = m !! Slot a)
  /\ (forall l, is_Some (m !! l) -> is_Some (m' !! l)).

(** The slots an event log loads, in order. *)
Definition slot_loads (acts : list action) : list Z :=
  omap (fun a => match a with Load (Slot p) _ => Some p | _ => None end) acts.

(** The log of the draining of a ready set, and the number of batches it
    took: each batch is a wait that reports at most [MAX_EVENTS] events,
    then the handling of the events it reported, then the store of 1 to the
    acknowledgement cell. *)
Inductive drained (epfd ack : Z)
  : nat -> list epoll_event -> list action -> Prop :=
| drained_last evs evacts :
    (length evs <= Z.to_nat MAX_EVENTS)%nat ->
    Forall event_action evacts ->
    slot_loads evacts = map data_ptr evs ->
    drained epfd ack 1 evs
      (EpollWait epfd MAX_EVENTS (-1) (Z.of_nat (length evs))
         :: evacts ++ [Store (Ack ack) 1])
| drained_more n evs evacts rest :
    (Z.to_nat MAX_EVENTS < length evs)%nat ->
    Forall event_action evacts ->
    slot_loads evacts = map data_ptr (batch_of evs) ->
    drained epfd ack n (drop (Z.to_nat MAX_EVENTS) evs) rest ->
    drained epfd ack (S n) evs
      ((EpollWait epfd MAX_EVENTS (-1) MAX_EVENTS
          :: evacts ++ [Store (Ack ack) 1]) ++ rest).

Definition rounds_for (evs : list epoll_event) : nat :=
  S ((length evs - 1) / Z.to_nat MAX_EVENTS).

(** The waits and the stores of a log, the handling of events left out. *)
Definition waits_and_stores (acts : list action) : list action :=
  List.filter
    (fun a => match a with
              | EpollWait _ _ _ _ | Store _ _ => true
              | _ => false
              end) acts.

(** ** Registered worlds *)

(** The events of a ready set that is in store are registered. *)
Definition in_store_mapped (m : gmap loc Z) (k : kevent) : Prop :=
  match k with
  | Ready evs => Forall (mapped m) evs
  | Failure _ => True
  end.

(** Every event the polling set will report is registered, and the
    acknowledgement cell is in memory. *)
Definition registered (freeack_ptr : Z) (w : world) : Prop :=
  Forall (in_store_mapped (mem w)) (kernel w)
  /\ is_Some (mem w !! Ack freeack_ptr).

(** The log of the handling of the events [evs], one after the other: for
    each event the load of its slot, followed, when the slot held an
    address that is not null and the event signals a close, by the
    compare-exchange on the state cell at that address, and by nothing
    otherwise. *)
Inductive event_steps : list epoll_event -> list action -> Prop :=
| steps_nil : event_steps [] []
| steps_skip ev v rest acts :
    v = NULL \/ ~ signals_close ev ->
    event_steps rest acts ->
    event_steps (ev :: rest) (Load (Slot (data_ptr ev)) v :: acts)
| steps_cas ev c s rest acts :
    c <> NULL -> signals_close ev ->
    event_steps rest acts ->
    event_steps (ev :: rest)
      (Load (Slot (data_ptr ev)) c
         :: Cas (ConnState c) STATE_OK STATE_REMOTE_CLOSED s :: acts).

(** The log of a sequence of rounds that starts with [k] in store and ends
    with [k'] in store. A round whose wait is interrupted logs the wait. A
    round whose wait fails otherwise logs the wait and is the last one. A
    round whose wait finds the ready set [evs] logs the wait, that
    reported the batch of [evs], then the steps of the events of this
    batch, then the store of 1 to the acknowledgement cell, and leaves in
    store what the wait did not report. *)
Inductive rounds_log (epfd ack : Z)
  : list kevent -> list action -> list kevent -> Prop :=
| rounds_nil k : rounds_log epfd ack k [] k
| rounds_interrupted k rest k' :
    rounds_log epfd ack k rest k' ->
    rounds_log epfd ack (Failure EINTR :: k)
      (EpollWait epfd MAX_EVENTS (-1) (-1) :: rest) k'
| rounds_fatal e k :
    e <> EINTR ->
    rounds_log epfd ack (Failure e :: k)
      [EpollWait epfd MAX_EVENTS (-1) (-1)] k
| rounds_batch evs k evacts rest k' :
    event_steps (batch_of evs) evacts ->
    rounds_log epfd ack (kernel_after evs k) rest k' ->
    rounds_log epfd ack (Ready evs :: k)
      (EpollWait epfd MAX_EVENTS (-1) (Z.of_nat (length (batch_of evs)))
         :: evacts ++ Store (Ack ack) 1 :: rest) k'.

(** ** The effect of events on memory *)

#[global] Instance signals_close_dec ev : Decision (signals_close ev).
Proof. unfold signals_close. apply _. Defined.

(** Some event of [evs] signals a close through a slot that holds the
    address [c] of a cell. *)
Definition targeted (m : gmap loc Z) (evs : list epoll_event) (c : Z)
  : Prop :=
  Exists (fun ev => m !! Slot (data_ptr ev) = Some c
                    /\ c <> NULL /\ signals_close ev) evs.

(** What a cell holds once the events [evs] are handled in memory [m]: a
    state cell that is targeted and OK is REMOTE_CLOSED, every other cell
    is as in [m]. *)
Definition marked (m : gmap loc Z) (evs : list epoll_event) (l : loc)
  : option Z :=
  match l with
  | ConnState c =>
      if decide (targeted m evs c /\ m !! ConnState c = Some STATE_OK)
      then Some STATE_REMOTE_CLOSED
      else m !! l
  | _ => m !! l
  end.

(** [m'] is [m] after the events [evs] were handled and, when [stored],
    the acknowledgement cell was set. *)
Definition effect (ack : Z) (stored : bool) (evs : list epoll_event)
  (m m' : gmap loc Z) : Prop :=
  forall l,
    m' !! l
    = match l with
      | Ack a => if decide (a = ack)
                 then (if stored then Some 1 else m !! l)
                 else m !! l
      | _ => marked m evs l
      end.

Definition is_ready (k : kevent) : bool :=
  match k with
  | Ready _ => true
  | Failure _ => false
  end.

(** All the events in store, in the order of their delivery. *)
Definition all_events (k : list kevent) : list epoll_event :=
  concat (map (fun x => match x with Ready evs => evs | Failure _ => [] end) k).

(** The rounds it takes to use up what is in store. *)
Definition script_rounds (k : list kevent) : nat :=
  sum_list (map (fun x => match x with
                          | Ready evs => rounds_for evs
                          | Failure _ => 1%nat
                          end) k).

(** ** Concrete worlds *)

Module Witness.
Import Scenario.

Definition hupA : epoll_event := {| events := EPOLLHUP; data_ptr := slotA |}.
Definition errA : epoll_event :=
  {| events := Z.lor EPOLLERR EPOLLRDHUP; data_ptr := slotA |}.
Definition inA : epoll_event := {| events := EPOLLIN; data_ptr := slotA |}.

(** The world of the scenario once its wait has returned. *)
Definition woken : world :=
  World memory [] 0 [EpollWait 3 MAX_EVENTS (-1) 3].

(** The slot of A nulled by the teardown of the connection. *)
Definition torn_down : world :=
  World (<[Slot slotA := NULL]> memory) [Ready [hupA]] 0 [].

(** Five interruptions before the batch of the scenario. *)
Definition interrupted5 : world :=
  World memory (replicate 5 (Failure EINTR) ++ [Ready batch]) 0 [].

(** EBADF after an interruption. *)
Definition failing : world :=
  World memory [Failure EINTR; Failure 9; Ready batch] 0 [].

(** More ready descriptors than one wait reports. *)
Definition crowded : world :=
  World memory [Ready (replicate 1025 hupA)] 0 [].

(** A wait that reports no event. *)
Definition idle : world := World memory [Ready []] 0 [].
End Witness.

(** * Properties *)

Example scenario_runs :
  exists w, cgo_epoll_wait_loop 5 3 Scenario.ack Scenario.start = Parked w
    /\ mem w !! ConnState Scenario.cellA = Some STATE_REMOTE_CLOSED
    /\ log w = [EpollWait 3 1024 (-1) 3;
                Load (Slot Scenario.slotA) Scenario.cellA;
                Cas (ConnState Scenario.cellA) 0 1 0;
                Load (Slot Scenario.slotB) Scenario.cellB;
                Cas (ConnState Scenario.cellB) 0 1 0;
                Load (Slot Scenario.slotC) Scenario.cellC;
                Store (Ack Scenario.ack) 1].
Proof.
  eexists. split; [vm_compute; reflexivity|].
  split; vm_compute; reflexivity.
Qed.

(** ** What the loop is made of

  Any relation between worlds that is a preorder and that each of the
  four operations of the loop respects, with the arguments the loop
  gives them, holds between the world a call starts in and the world it
  is observed in. *)
Section Guarantee.
Variables epfd freeack_ptr : Z.
Variable R : world -> world -> Prop.
Hypothesis R_refl : forall w, R w w.
Hypothesis R_trans : forall w1 w2 w3, R w1 w2 -> R w2 w3 -> R w1 w3.
Hypothesis R_load : forall a w, R w (world_of (atomic_load (Slot a) w)).
Hypothesis R_cas : forall c w,
  R w (world_of (atomic_compare_exchange_strong (ConnState c)
                   STATE_OK STATE_REMOTE_CLOSED w)).
Hypothesis R_store : forall w,
  R w (world_of (atomic_store (Ack freeack_ptr) 1 w)).
Hypothesis R_wait : forall w,
  R w (world_of (epoll_wait epfd MAX_EVENTS (-1) w)).

Lemma handle_event_guar ev w : R w (world_of (handle_event ev w)).
Proof.
  unfold handle_event, bind.
  pose proof (R_load (data_ptr ev) w) as Hl.
  destruct (atomic_load (Slot (data_ptr ev)) w) as [p w1| |]; simpl in *; auto.
  destruct (decide (p = NULL)); simpl; auto.
  destruct (decide (Z.land (events ev) hup_mask <> 0)); simpl; auto.
  pose proof (R_cas p w1) as Hc.
  destruct (atomic_compare_exchange_strong _ _ _ w1); simpl in *; eauto.
Qed.

Lemma for_events_guar evs : forall w, R w (world_of (for_events evs w)).
Proof.
  induction evs as [|ev rest IH]; intros w; simpl; auto.
  unfold bind. pose proof (handle_event_guar ev w) as Hh.
  destruct (handle_event ev w) as [[] w1| |]; simpl in *; eauto.
Qed.

Lemma loop_body_guar w :
  R w (world_of (loop_body epfd freeack_ptr w)).
Proof.
  unfold loop_body, bind.
  pose proof (R_wait w) as Hw.
  destruct (epoll_wait epfd MAX_EVENTS (-1) w) as [[n buf] w1| |];
    simpl in *; auto.
  destruct (decide (n < 0)).
  - unfold get_errno, ret.
    destruct (decide (errno w1 = EINTR)); simpl; auto.
  - pose proof (for_events_guar (take (Z.to_nat n) buf) w1) as Hf.
    destruct (for_events _ w1) as [[] w2| |]; simpl in *; eauto.
    pose proof (R_store w2) as Hs.
    destruct (atomic_store (Ack freeack_ptr) 1 w2) as [[] w3| |];
      simpl in *; eauto.
Qed.

Lemma loop_guar rounds :
  forall w,
    R w (status_world (cgo_epoll_wait_loop rounds epfd freeack_ptr w)).
Proof.
  induction rounds as [|n IH]; intros w; simpl; auto.
  pose proof (loop_body_guar w) as Hb.
  destruct (loop_body epfd freeack_ptr w) as [[e|] w1| |];
    simpl in *; eauto.
Qed.
End Guarantee.

(** ** The log of a call *)

Lemma replay_app a1 a2 m : replay (a1 ++ a2) m = replay a2 (replay a1 m).
Proof. unfold replay. apply foldl_app. Qed.

Lemma coherent_app a1 : forall a2 m,
  coherent (a1 ++ a2) m <-> coherent a1 m /\ coherent a2 (replay a1 m).
Proof.
  induction a1 as [|a rest IH]; intros a2 m; simpl.
  - tauto.
  - rewrite IH. unfold replay at 2. simpl. fold (replay rest (replay1 m a)).
    tauto.
Qed.

Lemma did_nil w : did [] w w.
Proof. unfold did. simpl. rewrite app_nil_r. auto. Qed.

Lemma did_app a1 a2 w1 w2 w3 :
  did a1 w1 w2 -> did a2 w2 w3 -> did (a1 ++ a2) w1 w3.
Proof.
  intros (Hl1 & Hm1 & Hc1) (Hl2 & Hm2 & Hc2). unfold did.
  rewrite Hl2, Hl1, Hm2, Hm1, replay_app, coherent_app, <- Hm1.
  rewrite <- app_assoc. auto.
Qed.

Lemma did_one a w w' :
  log w' = log w ++ [a] -> mem w' = replay1 (mem w) a -> sees (mem w) a ->
  did [a] w w'.
Proof. intros Hl Hm Hs. unfold did. simpl. auto. Qed.

Section Doing.
Variable P : action -> Prop.

Lemma doing_refl w : doing P w w.
Proof. exists []. split; [apply did_nil | constructor]. Qed.

Lemma doing_trans w1 w2 w3 :
  doing P w1 w2 -> doing P w2 w3 -> doing P w1 w3.
Proof.
  intros (a1 & Hd1 & Hf1) (a2 & Hd2 & Hf2). exists (a1 ++ a2).
  split; [eapply did_app; eauto | apply Forall_app; auto].
Qed.

Lemma doing_one a w w' :
  log w' = log w ++ [a] -> mem w' = replay1 (mem w) a -> sees (mem w) a ->
  P a -> doing P w w'.
Proof.
  intros Hl Hm Hs Ha. exists [a].
  split; [by apply did_one | by repeat constructor].
Qed.

Lemma doing_load l w :
  (forall v, P (Load l v)) -> doing P w (world_of (atomic_load l w)).
Proof.
  intros HP. unfold atomic_load. destruct (mem w !! l) as [v|] eqn:E; simpl.
  - eapply doing_one; [reflexivity | reflexivity | exact E | apply HP].
  - apply doing_refl.
Qed.

Lemma doing_cas l expected desired w :
  (forall found, P (Cas l expected desired found)) ->
  doing P w
    (world_of (atomic_compare_exchange_strong l expected desired w)).
Proof.
  intros HP. unfold atomic_compare_exchange_strong.
  destruct (mem w !! l) as [v|] eqn:E; simpl.
  - destruct (decide (v = expected)) as [->|Hne]; simpl.
    + eapply doing_one; [reflexivity | | exact E | apply HP].
      unfold replay1; simpl. by rewrite decide_True.
    + eapply doing_one; [reflexivity | | exact E | apply HP].
      unfold replay1; simpl. by rewrite decide_False.
  - apply doing_refl.
Qed.

Lemma doing_store l v w :
  P (Store l v) -> doing P w (world_of (atomic_store l v w)).
Proof.
  intros HP. unfold atomic_store.
  destruct (mem w !! l) as [old|] eqn:E; simpl.
  - eapply doing_one; [reflexivity | reflexivity | by eexists | apply HP].
  - apply doing_refl.
Qed.

Lemma doing_wait epfd maxevents timeout w :
  0 < maxevents ->
  (forall n, -1 <= n <= maxevents ->
     P (EpollWait epfd maxevents timeout n)) ->
  doing P w (world_of (epoll_wait epfd maxevents timeout w)).
Proof.
  intros Hpos HP. unfold epoll_wait. rewrite decide_False by lia.
  destruct (kernel w) as [|[evs|e] k]; simpl.
  - destruct (decide (timeout = -1)); simpl; [apply doing_refl|].
    eapply doing_one; [reflexivity | reflexivity | exact I |].
    apply HP. lia.
  - eapply doing_one; [reflexivity | reflexivity | exact I |].
    apply HP. rewrite length_take. lia.
  - eapply doing_one; [reflexivity | reflexivity | exact I |].
    apply HP. lia.
Qed.
End Doing.

Lemma doing_mono (P Q : action -> Prop) w w' :
  (forall a, P a -> Q a) -> doing P w w' -> doing Q w w'.
Proof.
  intros HPQ (acts & Hd & Hf). exists acts. split; [done|].
  eapply Forall_impl; eauto.
Qed.

Lemma event_action_loop epfd ack a :
  event_action a -> loop_action epfd ack a.
Proof. destruct a as [| [] | [] | ]; simpl; tauto. Qed.

(** Discharges the premises of the lemmas of [Guarantee] for [doing P]. *)
Ltac by_parts :=
  first
    [ apply doing_refl
    | apply doing_trans
    | intros; by apply doing_load
    | intros; by apply doing_cas
    | intros; by apply doing_store
    | intros; apply doing_wait; [done | simpl; intros; tauto] ].

Lemma handle_event_doing ev w :
  doing event_action w (world_of (handle_event ev w)).
Proof. apply (handle_event_guar (doing event_action)); by_parts. Qed.

Lemma for_events_doing evs w :
  doing event_action w (world_of (for_events evs w)).
Proof. apply (for_events_guar (doing event_action)); by_parts. Qed.

Lemma handle_event_follows epfd freeack_ptr ev w :
  follows epfd freeack_ptr w (world_of (handle_event ev w)).
Proof.
  eapply doing_mono; [apply event_action_loop | apply handle_event_doing].
Qed.

Lemma loop_follows epfd freeack_ptr rounds w :
  follows epfd freeack_ptr w
    (status_world (cgo_epoll_wait_loop rounds epfd freeack_ptr w)).
Proof.
  apply (loop_guar epfd freeack_ptr (follows epfd freeack_ptr));
    unfold follows; by_parts.
Qed.

(** ** State cells only go from OK to REMOTE_CLOSED *)

Lemma marks_refl m : marks m m.
Proof. intros c. by left. Qed.

Lemma marks_trans m1 m2 m3 : marks m1 m2 -> marks m2 m3 -> marks m1 m3.
Proof.
  intros H12 H23 c. destruct (H12 c) as [E12|[E1 E2]], (H23 c) as [E23|[E2' E3]].
  - left. congruence.
  - right. split; congruence.
  - right. split; congruence.
  - rewrite E2 in E2'. discriminate.
Qed.

Lemma replay1_marks epfd ack m a :
  loop_action epfd ack a -> sees m a -> marks m (replay1 m a).
Proof.
  destruct a as [e mx t n|l v|l ex de fo|l v]; simpl;
    try (intros; apply marks_refl).
  - destruct l as [a|c|c|a]; try tauto. intros [-> ->] Hs.
    unfold replay1; simpl. destruct (decide (fo = STATE_OK)) as [->|Hne];
      [|apply marks_refl].
    intros c'. destruct (decide (c' = c)) as [->|Hc].
    + right. by rewrite lookup_insert_eq.
    + left. rewrite lookup_insert_ne; [done|congruence].
  - destruct l as [a|c|c|a]; try tauto. intros _ _ c.
    left. unfold replay1; simpl. by rewrite lookup_insert_ne.
Qed.

Lemma replay_marks epfd ack acts : forall m,
  Forall (loop_action epfd ack) acts -> coherent acts m ->
  marks m (replay acts m).
Proof.
  induction acts as [|a rest IH]; intros m Hf Hc; simpl.
  - apply marks_refl.
  - inversion Hf as [|? ? Ha Hrest]; subst. destruct Hc as [Hs Hc].
    eapply marks_trans; [eapply replay1_marks; eauto|].
    apply IH; auto.
Qed.

Lemma loop_action_cell epfd ack a :
  loop_action epfd ack a ->
  (forall c e d f, a = Cas (ConnState c) e d f ->
     e = STATE_OK /\ d = STATE_REMOTE_CLOSED)
  /\ (forall c v, writes a = Some (ConnState c, v) ->
        a = Cas (ConnState c) STATE_OK STATE_REMOTE_CLOSED STATE_OK)
  /\ (forall c, writes a <> Some (ConnState c, STATE_CLOSED)).
Proof.
  destruct a as [e mx t n|l v|l ex de fo|l v]; simpl.
  - intros _. repeat split; intros; discriminate.
  - intros _. repeat split; intros; discriminate.
  - destruct l as [a|c|c|a]; try tauto. intros [-> ->].
    split; [|split].
    + intros c' e d f [= -> -> -> ->]. done.
    + intros c' v. destruct (decide (fo = STATE_OK)) as [->|]; [|done].
      by intros [= -> <-].
    + intros c'. destruct (decide (fo = STATE_OK)); [|done].
      unfold STATE_REMOTE_CLOSED, STATE_CLOSED. congruence.
  - destruct l as [a|c|c|a]; try tauto. intros [-> ->].
    repeat split; intros; discriminate.
Qed.

Lemma follows_only_marks epfd ack w w' : follows epfd ack w w' -> only_marks w w'.
Proof.
  intros (acts & (Hl & Hm & Hc) & Hf).
  assert (Hmarks : marks (mem w) (mem w')).
  { rewrite Hm. eapply replay_marks; eauto. }
  split; [exact Hmarks|]. split.
  - intros c s Hs Hne. destruct (Hmarks c) as [E|[E _]]; [congruence|].
    rewrite Hs in E. congruence.
  - exists acts. split; [done|]. intros a Ha.
    eapply loop_action_cell. rewrite Forall_forall in Hf. eauto.
Qed.

(** C1. Whatever the event, the state cell and the number of rounds, the
    compare-exchange of the loop, the handling of one event and the whole
    loop do nothing to a state cell but the compare-exchange that expects
    OK and installs REMOTE_CLOSED: a cell is unchanged or went from OK to
    REMOTE_CLOSED, a cell that is not OK (REMOTE_CLOSED, CLOSED) keeps its
    state, and CLOSED is never written. *)
Theorem C1_only_ok_to_remote_closed rounds epfd freeack_ptr ev c w :
  only_marks w
    (world_of (atomic_compare_exchange_strong (ConnState c)
                 STATE_OK STATE_REMOTE_CLOSED w))
  /\ only_marks w (world_of (handle_event ev w))
  /\ only_marks w
       (status_world (cgo_epoll_wait_loop rounds epfd freeack_ptr w)).
Proof.
  split; [|split].
  - apply (follows_only_marks epfd freeack_ptr). by apply doing_cas.
  - eapply follows_only_marks, (handle_event_follows epfd freeack_ptr).
  - eapply follows_only_marks, loop_follows.
Qed.

(** ** The acknowledgement of a batch *)

Lemma replay_frame l acts : forall m,
  Forall (fun a => forall v, writes a <> Some (l, v)) acts ->
  replay acts m !! l = m !! l.
Proof.
  induction acts as [|a rest IH]; intros m Hf; [done|].
  inversion Hf as [|? ? Ha Hrest]; subst. unfold replay in *. simpl.
  rewrite IH by done. unfold replay1.
  destruct (writes a) as [[l' v]|] eqn:E; [|done].
  apply lookup_insert_ne. intros ->. by apply (Ha v).
Qed.

Lemma event_action_ack a :
  event_action a ->
  (forall x, reads a <> Some (Ack x))
  /\ (forall x v, writes a <> Some (Ack x, v)).
Proof.
  destruct a as [| [] | [] ex de fo | ]; simpl; try tauto.
  - intros _. split; intros; discriminate.
  - intros _. split; intros; [discriminate|].
    destruct (decide (fo = ex)); discriminate.
Qed.

Lemma loop_action_ack epfd ack a :
  loop_action epfd ack a ->
  (forall x, reads a <> Some (Ack x))
  /\ (forall x v, writes a = Some (Ack x, v) -> x = ack /\ v = 1).
Proof.
  destruct a as [| [] | [] ex de fo | [] ]; simpl; try tauto.
  - intros _. split; intros; discriminate.
  - intros _. split; intros; discriminate.
  - intros _. split; intros; [discriminate|].
    destruct (decide (fo = ex)); discriminate.
  - intros [-> ->]. split; intros; [discriminate|]. by simplify_eq.
Qed.

Lemma epoll_wait_mem epfd maxevents timeout w r w1 :
  epoll_wait epfd maxevents timeout w = Ok r w1 -> mem w1 = mem w.
Proof.
  unfold epoll_wait. destruct (decide (maxevents <= 0)).
  - by intros [= _ <-].
  - destruct (kernel w) as [|[evs|e] k].
    + destruct (decide (timeout = -1)); [done|]. by intros [= _ <-].
    + by intros [= _ <-].
    + by intros [= _ <-].
Qed.

Lemma for_events_ack evs w w2 l :
  for_events evs w = Ok tt w2 ->
  (forall c, l <> ConnState c) ->
  mem w2 !! l = mem w !! l.
Proof.
  intros Hfor Hl. pose proof (for_events_doing evs w) as (acts & Hd & Hf).
  rewrite Hfor in Hd. simpl in Hd. destruct Hd as (_ & -> & _).
  apply replay_frame. eapply Forall_impl; [exact Hf|].
  intros [e mx t r| [a|c|c|a] x | [a|c|c|a] ex de fo | l' x]; simpl;
    try tauto; intros _ v; try discriminate.
  destruct (decide (fo = ex)); [|discriminate]. intros [= <- _]. by eapply Hl.
Qed.

(** A wait that returns zero events is acknowledged like any other. *)
Example empty_batch_acknowledged :
  loop_body 3 Scenario.ack Witness.idle
  = Ok None
      (World (<[Ack Scenario.ack := 1]> Scenario.memory) [] 0
         [EpollWait 3 MAX_EVENTS (-1) 0; Store (Ack Scenario.ack) 1]).
Proof. vm_compute. reflexivity. Qed.

(** ** A slot that loads as null *)

(** C3. An event whose slot loads as null is skipped: its handling is the
    load of the slot and nothing else, it succeeds (no fault, nothing
    returned), memory is as before, and the [for] loop goes on with the
    events that remain. *)
Theorem C3_null_slot_skipped ev rest w :
  mem w !! Slot (data_ptr ev) = Some NULL ->
  let w' := record (Load (Slot (data_ptr ev)) NULL) w in
  handle_event ev w = Ok tt w'
  /\ mem w' = mem w
  /\ did [Load (Slot (data_ptr ev)) NULL] w w'
  /\ (forall c, reads (Load (Slot (data_ptr ev)) NULL) <> Some (ConnState c))
  /\ for_events (ev :: rest) w = for_events rest w'.
Proof.
  intros Hslot w'.
  assert (Hev : handle_event ev w = Ok tt w').
  { unfold handle_event, bind, atomic_load. rewrite Hslot.
    by rewrite decide_True. }
  split; [exact Hev|]. split; [done|]. split; [by apply did_one|].
  split; [done|]. simpl. unfold bind. by rewrite Hev.
Qed.

(** ** A wait that fails *)

Lemma loop_body_failure epfd ack w e k :
  kernel w = Failure e :: k ->
  loop_body epfd ack w
  = Ok (if decide (e = EINTR) then None else Some e) (failed_wait epfd e k w).
Proof.
  intros Hk. unfold loop_body, bind, epoll_wait.
  rewrite decide_False by (unfold MAX_EVENTS; lia). rewrite Hk. simpl.
  unfold get_errno, ret. simpl. by destruct (decide (e = EINTR)).
Qed.

Lemma loop_plus epfd ack a b : forall w,
  cgo_epoll_wait_loop (a + b) epfd ack w
  = match cgo_epoll_wait_loop a epfd ack w with
    | Looping w1 => cgo_epoll_wait_loop b epfd ack w1
    | s => s
    end.
Proof.
  induction a as [|a IH]; intros w; simpl; [done|].
  destruct (loop_body epfd ack w) as [[e|] w1| |]; auto.
Qed.

Lemma loop_interrupted epfd ack j : forall w k,
  kernel w = replicate j (Failure EINTR) ++ k ->
  cgo_epoll_wait_loop j epfd ack w = Looping (interrupted j epfd k w).
Proof.
  induction j as [|j IH]; intros w k Hk; simpl in *.
  - unfold interrupted. simpl. rewrite app_nil_r. subst k. by destruct w.
  - rewrite (loop_body_failure _ _ _ _ _ Hk). rewrite decide_True by done.
    rewrite (IH _ k) by done. unfold interrupted, failed_wait. simpl.
    f_equal. f_equal.
    + by destruct (decide (j = 0%nat)).
    + by rewrite <- app_assoc.
Qed.

(** C5. When the wait is interrupted by a signal [j] times in a row, the
    loop is still running after these [j] rounds, with the memory it
    started with — state cells and acknowledgement cell included —, its log
    grown by the [j] waits and by nothing else, no store among them; what
    it does next is what it does from there. *)
Theorem C5_interrupted_wait_retried j epfd freeack_ptr w k :
  kernel w = replicate j (Failure EINTR) ++ k ->
  let w' := interrupted j epfd k w in
  cgo_epoll_wait_loop j epfd freeack_ptr w = Looping w'
  /\ mem w' = mem w
  /\ kernel w' = k
  /\ did (replicate j (EpollWait epfd MAX_EVENTS (-1) (-1))) w w'
  /\ (forall j' e w'', (j' <= j)%nat ->
        cgo_epoll_wait_loop j' epfd freeack_ptr w <> Returned e w'')
  /\ forall rounds,
       cgo_epoll_wait_loop (j + rounds) epfd freeack_ptr w
       = cgo_epoll_wait_loop rounds epfd freeack_ptr w'.
Proof.
  intros Hk w'. pose proof (loop_interrupted epfd freeack_ptr j w k Hk) as Hj.
  split; [exact Hj|]. split; [done|]. split; [done|]. split; [|split].
  - unfold did. split; [done|]. simpl. clear.
    induction j as [|j IH]; simpl; [done|].
    change (replay1 (mem w) (EpollWait epfd MAX_EVENTS (-1) (-1))) with (mem w).
    tauto.
  - intros j' e w'' Hle Hret.
    replace j with (j' + (j - j'))%nat in Hj by lia.
    rewrite loop_plus, Hret in Hj. discriminate.
  - intros rounds. by rewrite loop_plus, Hj.
Qed.

(** Five interruptions, then the batch of the scenario: the sixth round
    handles it. *)
Example five_interruptions_then_events :
  exists w,
    cgo_epoll_wait_loop 6 3 Scenario.ack Witness.interrupted5 = Looping w
    /\ mem w !! ConnState Scenario.cellA = Some STATE_REMOTE_CLOSED
    /\ mem w !! ConnState Scenario.cellB = Some STATE_REMOTE_CLOSED
    /\ mem w !! ConnState Scenario.cellC = Some STATE_CLOSED
    /\ mem w !! Ack Scenario.ack = Some 1.
Proof.
  eexists. split; [vm_compute; reflexivity|].
  repeat split; vm_compute; reflexivity.
Qed.

(** ** When the call returns *)

Lemma epoll_wait_cases epfd w :
  match kernel w with
  | [] => epoll_wait epfd MAX_EVENTS (-1) w = Blocked w
  | Failure e :: k =>
      epoll_wait epfd MAX_EVENTS (-1) w = Ok (-1, []) (failed_wait epfd e k w)
  | Ready evs :: k =>
      epoll_wait epfd MAX_EVENTS (-1) w
      = Ok (Z.of_nat (length (batch_of evs)), batch_of evs)
          (waited epfd evs k w)
  end.
Proof.
  unfold epoll_wait. rewrite decide_False by (unfold MAX_EVENTS; lia).
  by destruct (kernel w) as [|[evs|e] k].
Qed.

Lemma loop_body_ready epfd ack w evs k :
  kernel w = Ready evs :: k ->
  loop_body epfd ack w
  = (for_events (batch_of evs) ;;; atomic_store (Ack ack) 1 ;;; ret None)
      (waited epfd evs k w).
Proof.
  intros Hk. unfold loop_body. unfold bind at 1.
  pose proof (epoll_wait_cases epfd w) as Hw. rewrite Hk in Hw. rewrite Hw.
  simpl. rewrite decide_False by lia.
  rewrite Nat2Z.id. by rewrite take_ge by done.
Qed.

Lemma loop_body_returns epfd ack w e w' :
  loop_body epfd ack w = Ok (Some e) w' ->
  e <> EINTR /\ kernel w = Failure e :: kernel w'
  /\ w' = failed_wait epfd e (kernel w') w.
Proof.
  destruct (kernel w) as [|[evs|x] k] eqn:Hk.
  - unfold loop_body, bind. pose proof (epoll_wait_cases epfd w) as Hw.
    rewrite Hk in Hw. by rewrite Hw.
  - rewrite (loop_body_ready _ _ _ _ _ Hk). unfold bind.
    destruct (for_events _ _) as [[] w2| |]; try done.
    destruct (atomic_store _ _ w2) as [[] w3| |]; done.
  - rewrite (loop_body_failure _ _ _ _ _ Hk).
    destruct (decide (x = EINTR)); [done|]. by intros [= -> <-].
Qed.

Lemma loop_returned epfd ack rounds : forall w e w',
  cgo_epoll_wait_loop rounds epfd ack w = Returned e w' ->
  exists r w1,
    (r < rounds)%nat
    /\ cgo_epoll_wait_loop r epfd ack w = Looping w1
    /\ kernel w1 = Failure e :: kernel w'
    /\ e <> EINTR
    /\ w' = failed_wait epfd e (kernel w') w1.
Proof.
  induction rounds as [|n IH]; intros w e w'; simpl; [done|].
  destruct (loop_body epfd ack w) as [[x|] w1| |] eqn:Hb; try done.
  - intros [= -> ->]. apply loop_body_returns in Hb as (Hne & Hk & Hw).
    exists 0%nat, w. split; [lia|]. done.
  - intros Hret. destruct (IH _ _ _ Hret) as (r & w2 & Hr & Hloop & Hrest).
    exists (S r), w2. split; [lia|]. simpl. rewrite Hb. done.
Qed.

Lemma loop_no_new_failure epfd ack rounds w :
  no_new_failure w (status_world (cgo_epoll_wait_loop rounds epfd ack w)).
Proof.
  apply (loop_guar epfd ack no_new_failure); unfold no_new_failure.
  - auto.
  - auto.
  - intros a w0. unfold atomic_load. by destruct (mem w0 !! Slot a).
  - intros c w0. unfold atomic_compare_exchange_strong.
    destruct (mem w0 !! ConnState c) as [v|]; [|done].
    by destruct (decide (v = STATE_OK)).
  - intros w0. unfold atomic_store. by destruct (mem w0 !! Ack ack).
  - intros w0 e. pose proof (epoll_wait_cases epfd w0) as Hw.
    destruct (kernel w0) as [|[evs|x] k] eqn:Hk; rewrite Hw; simpl.
    + by rewrite Hk.
    + unfold kernel_after.
      destruct (decide (length evs <= Z.to_nat MAX_EVENTS)%nat); intros Hin.
      * by right.
      * apply elem_of_cons in Hin as [Hin|Hin]; [discriminate | by right].
    + intros Hin. by right.
Qed.

(** C4. A call returns only from a round whose wait failed with an [errno]
    other than EINTR, a failure that was in store from the start, and it
    returns that [errno]: the world it returns in is the one the round
    started in with the failed wait added to the log, the memory and the
    rest of what is in store untouched. Conversely such a failure makes the
    call return, in that round. With nothing in store but ready descriptors
    (none included) and interruptions, the call has not returned after any
    number of rounds. *)
Theorem C4_returns_only_fatal_error epfd freeack_ptr w :
  (forall rounds e w',
     cgo_epoll_wait_loop rounds epfd freeack_ptr w = Returned e w' ->
     e <> EINTR /\ Failure e ∈ kernel w
     /\ exists r w1,
          (r < rounds)%nat
          /\ cgo_epoll_wait_loop r epfd freeack_ptr w = Looping w1
          /\ kernel w1 = Failure e :: kernel w'
          /\ w' = failed_wait epfd e (kernel w') w1)
  /\ (forall r w1 e k more,
        cgo_epoll_wait_loop r epfd freeack_ptr w = Looping w1 ->
        kernel w1 = Failure e :: k -> e <> EINTR ->
        cgo_epoll_wait_loop (r + S more) epfd freeack_ptr w
        = Returned e (failed_wait epfd e k w1))
  /\ (Forall calm (kernel w) ->
      forall rounds e w',
        cgo_epoll_wait_loop rounds epfd freeack_ptr w <> Returned e w').
Proof.
  assert (Hret : forall rounds e w',
    cgo_epoll_wait_loop rounds epfd freeack_ptr w = Returned e w' ->
    e <> EINTR /\ Failure e ∈ kernel w
    /\ exists r w1,
         (r < rounds)%nat
         /\ cgo_epoll_wait_loop r epfd freeack_ptr w = Looping w1
         /\ kernel w1 = Failure e :: kernel w'
         /\ w' = failed_wait epfd e (kernel w') w1).
  { intros rounds e w' H.
    destruct (loop_returned _ _ _ _ _ _ H) as (r & w1 & Hr & Hl & Hk & Hne & Hw).
    split; [done|]. split; [|by exists r, w1].
    pose proof (loop_no_new_failure epfd freeack_ptr r w) as Hin.
    rewrite Hl in Hin. apply Hin. simpl. rewrite Hk. by left. }
  split; [exact Hret|]. split.
  - intros r w1 e k more Hl Hk Hne. rewrite loop_plus, Hl. simpl.
    rewrite (loop_body_failure _ _ _ _ _ Hk). by rewrite decide_False.
  - intros Hcalm rounds e w' H. destruct (Hret _ _ _ H) as (Hne & Hin & _).
    rewrite Forall_forall in Hcalm. by apply Hcalm in Hin.
Qed.

(** C10. With the failures of the wait setting [errno] as they must, a call
    that returns returns a value that is not 0: it is the [errno] of a
    failed wait that was in store, and not EINTR. *)
Theorem C10_never_returns_success rounds epfd freeack_ptr w e w' :
  Forall errno_set (kernel w) ->
  cgo_epoll_wait_loop rounds epfd freeack_ptr w = Returned e w' ->
  e <> 0 /\ e <> EINTR /\ Failure e ∈ kernel w /\ errno w' = e.
Proof.
  intros Hset H.
  destruct (loop_returned _ _ _ _ _ _ H) as (r & w1 & Hr & Hl & Hk & Hne & Hw).
  assert (Hin : Failure e ∈ kernel w).
  { pose proof (loop_no_new_failure epfd freeack_ptr r w) as Hin.
    rewrite Hl in Hin. apply Hin. simpl. rewrite Hk. by left. }
  rewrite Forall_forall in Hset. apply Hset in Hin as Hpos. simpl in Hpos.
  split; [lia|]. split; [done|]. split; [done|]. by rewrite Hw.
Qed.

(** ** Hang-up, remote shutdown of writes, error *)

Lemma hup_mask_spec ev :
  Z.land (events ev) hup_mask <> 0 <-> signals_close ev.
Proof.
  unfold hup_mask, signals_close. rewrite !Z.land_lor_distr_r.
  rewrite !Z.lor_eq_0_iff. lia.
Qed.

Lemma handle_event_close ev c s w :
  mem w !! Slot (data_ptr ev) = Some c -> c <> NULL -> signals_close ev ->
  mem w !! ConnState c = Some s ->
  handle_event ev w = Ok tt (closed_by ev c s w).
Proof.
  intros Hslot Hc Hsig Hs. unfold handle_event, bind, atomic_load.
  rewrite Hslot. rewrite decide_False by done.
  rewrite decide_True by (by apply hup_mask_spec).
  unfold atomic_compare_exchange_strong, closed_by, ret. simpl. rewrite Hs.
  destruct (decide (s = STATE_OK)); unfold record, poke; simpl;
    by rewrite <- app_assoc.
Qed.

Lemma snoc_neq {A} (l : list A) (a : A) : l ++ [a] <> l.
Proof.
  intros H. apply (f_equal length) in H. rewrite length_app in H.
  simpl in H. lia.
Qed.

(** C6. For an event whose slot holds a pointer that is not null, the
    compare-exchange from OK to REMOTE_CLOSED on the state cell behind it is
    attempted if and only if the event carries EPOLLHUP, EPOLLRDHUP or
    EPOLLERR. Without any of them the handling is the load of the slot
    alone and memory is as before. Two events through the same slot that
    each carry at least one of the three are handled the same way,
    whichever they carry. *)
Theorem C6_cas_iff_close_signalled ev w conn :
  mem w !! Slot (data_ptr ev) = Some conn -> conn <> NULL ->
  let w1 := record (Load (Slot (data_ptr ev)) conn) w in
  let attempt :=
    (atomic_compare_exchange_strong (ConnState conn)
       STATE_OK STATE_REMOTE_CLOSED ;;; ret tt) w1 in
  (signals_close ev -> handle_event ev w = attempt)
  /\ (~ signals_close ev -> handle_event ev w = Ok tt w1 /\ mem w1 = mem w)
  /\ (handle_event ev w = attempt <-> signals_close ev)
  /\ (forall ev',
        data_ptr ev' = data_ptr ev -> signals_close ev -> signals_close ev' ->
        handle_event ev' w = handle_event ev w).
Proof.
  intros Hslot Hconn w1 attempt.
  assert (Hyes : forall e, data_ptr e = data_ptr ev -> signals_close e ->
                   handle_event e w = attempt).
  { intros e He Hsig. unfold handle_event, bind at 1, atomic_load.
    rewrite He, Hslot. rewrite decide_False by done.
    by rewrite decide_True by (by apply hup_mask_spec). }
  assert (Hno : ~ signals_close ev -> handle_event ev w = Ok tt w1).
  { intros Hsig. unfold handle_event, bind, atomic_load.
    rewrite Hslot. rewrite decide_False by done.
    by rewrite decide_False by (by rewrite hup_mask_spec). }
  split; [by apply Hyes|]. split; [by split; [apply Hno|]|]. split.
  - split; [|by apply Hyes]. intros Heq.
    destruct (decide (Z.land (events ev) hup_mask <> 0)) as [Hm|Hm];
      [by apply hup_mask_spec|].
    rewrite hup_mask_spec in Hm. rewrite (Hno Hm) in Heq. exfalso.
    unfold attempt, bind, atomic_compare_exchange_strong, ret in Heq.
    destruct (mem w1 !! ConnState conn) as [s|]; [|done].
    destruct (decide (s = STATE_OK)); apply (f_equal world_of) in Heq;
      apply (f_equal log) in Heq; simpl in Heq; symmetry in Heq;
      by apply snoc_neq in Heq.
  - intros ev' He Hsig Hsig'. rewrite (Hyes ev') by done.
    by rewrite (Hyes ev).
Qed.

(** ** Hang-ups delivered again *)

Lemma for_events_marked c s evs : forall w,
  c <> NULL -> mem w !! ConnState c = Some s -> s <> STATE_OK ->
  Forall (fun e => mem w !! Slot (data_ptr e) = Some c /\ signals_close e)
    evs ->
  for_events evs w
  = Ok tt (World (mem w) (kernel w) (errno w)
             (log w ++ redelivered c s evs)).
Proof.
  induction evs as [|ev rest IH]; intros w Hc Hs Hne Hall; simpl.
  - unfold ret, redelivered. simpl. rewrite app_nil_r. by destruct w.
  - inversion Hall as [|? ? [Hslot Hsig] Hrest]; subst.
    unfold bind. rewrite (handle_event_close ev c s w) by done.
    unfold closed_by. rewrite decide_False by done.
    rewrite IH by done. simpl. unfold redelivered. simpl.
    by rewrite <- app_assoc.
Qed.

(** C7. Hang-up or error events on a cell that is OK, however many, all
    through slots that hold the cell: the first one takes the cell to
    REMOTE_CLOSED by a compare-exchange that finds OK; the ones after it
    each attempt the compare-exchange, find REMOTE_CLOSED, and leave the
    whole memory as the first one left it. *)
Theorem C7_hangup_idempotent ev evs c w :
  c <> NULL -> mem w !! ConnState c = Some STATE_OK ->
  Forall (fun e => mem w !! Slot (data_ptr e) = Some c /\ signals_close e)
    (ev :: evs) ->
  exists w1 w2,
    handle_event ev w = Ok tt w1
    /\ for_events (ev :: evs) w = Ok tt w2
    /\ mem w1 = <[ConnState c := STATE_REMOTE_CLOSED]> (mem w)
    /\ mem w1 !! ConnState c = Some STATE_REMOTE_CLOSED
    /\ log w1 = log w ++ [Load (Slot (data_ptr ev)) c;
                          Cas (ConnState c) STATE_OK STATE_REMOTE_CLOSED
                            STATE_OK]
    /\ mem w2 = mem w1
    /\ log w2 = log w1 ++ redelivered c STATE_REMOTE_CLOSED evs.
Proof.
  intros Hc Hs Hall. inversion Hall as [|? ? [Hslot Hsig] Hrest]; subst.
  pose proof (handle_event_close ev c STATE_OK w Hslot Hc Hsig Hs) as Hev.
  set (w1 := closed_by ev c STATE_OK w) in *.
  assert (Hm1 : mem w1 = <[ConnState c := STATE_REMOTE_CLOSED]> (mem w)) by done.
  assert (Hs1 : mem w1 !! ConnState c = Some STATE_REMOTE_CLOSED).
  { rewrite Hm1. apply lookup_insert_eq. }
  assert (Hall1 : Forall (fun e => mem w1 !! Slot (data_ptr e) = Some c
                                   /\ signals_close e) evs).
  { eapply Forall_impl; [exact Hrest|]. intros e [He Hse]. split; [|done].
    rewrite Hm1. by rewrite lookup_insert_ne. }
  eexists w1, _. split; [exact Hev|]. split.
  { simpl. unfold bind. rewrite Hev.
    apply (for_events_marked c STATE_REMOTE_CLOSED evs w1); done. }
  done.
Qed.

(** ** Three descriptors *)

(** C8. Cells A and B OK and C CLOSED, a batch with a hang-up for A, a
    hang-up for B and a readable event for C: once the batch is drained A
    and B are REMOTE_CLOSED, C is still CLOSED and the acknowledgement cell
    holds 1, and with nothing more in store the thread then waits. *)
Theorem C8_three_cells :
  exists w,
    cgo_epoll_wait_loop 1 3 Scenario.ack Scenario.start = Looping w
    /\ cgo_epoll_wait_loop 2 3 Scenario.ack Scenario.start = Parked w
    /\ mem w !! ConnState Scenario.cellA = Some STATE_REMOTE_CLOSED
    /\ mem w !! ConnState Scenario.cellB = Some STATE_REMOTE_CLOSED
    /\ mem w !! ConnState Scenario.cellC = Some STATE_CLOSED
    /\ mem w !! Ack Scenario.ack = Some 1.
Proof.
  eexists. split; [vm_compute; reflexivity|].
  repeat split; vm_compute; reflexivity.
Qed.

(** ** Memory that is there *)

Lemma shape_refl m : shape m m.
Proof. by split. Qed.

Lemma shape_trans m1 m2 m3 : shape m1 m2 -> shape m2 m3 -> shape m1 m3.
Proof.
  intros [Ha Hb] [Hc Hd]. split.
  - intros a. by rewrite Hc.
  - auto.
Qed.

Lemma shape_mapped m m' ev : shape m m' -> mapped m ev -> mapped m' ev.
Proof.
  intros [Hslots Hsome] (p & Hp & Hcell). exists p. rewrite Hslots.
  split; [done|]. destruct Hcell; auto.
Qed.

Lemma replay1_shape epfd ack m a :
  loop_action epfd ack a -> shape m (replay1 m a).
Proof.
  intros Ha. unfold replay1.
  destruct (writes a) as [[l v]|] eqn:Hw; [|apply shape_refl].
  assert (Hl : forall x, l <> Slot x).
  { intros x ->. destruct a as [| [] | [] ex de fo | [] ]; simpl in *;
      try done; by destruct (decide (fo = ex)). }
  split.
  - intros x. apply lookup_insert_ne. apply Hl.
  - intros l' Hsome. destruct (decide (l = l')) as [->|Hne].
    + rewrite lookup_insert_eq. by eexists.
    + by rewrite lookup_insert_ne.
Qed.

Lemma doing_shape epfd ack w w' :
  doing (loop_action epfd ack) w w' -> shape (mem w) (mem w').
Proof.
  intros (acts & (_ & -> & _) & Hf). generalize (mem w) as m.
  induction Hf as [|a rest Ha Hrest IH]; intros m; [apply shape_refl|].
  eapply shape_trans; [by eapply replay1_shape|]. apply IH.
Qed.

Lemma handle_event_run ev w :
  mapped (mem w) ev ->
  exists w1 acts,
    handle_event ev w = Ok tt w1
    /\ did acts w w1 /\ Forall event_action acts
    /\ slot_loads acts = [data_ptr ev]
    /\ kernel w1 = kernel w /\ errno w1 = errno w.
Proof.
  intros (p & Hp & Hcell).
  assert (Hskip : p = NULL \/ ~ signals_close ev ->
    handle_event ev w = Ok tt (record (Load (Slot (data_ptr ev)) p) w)).
  { intros Hor. unfold handle_event, bind, atomic_load. rewrite Hp.
    destruct (decide (p = NULL)); [done|].
    destruct Hor as [?|Hno]; [done|].
    by rewrite decide_False by (by rewrite hup_mask_spec). }
  destruct (decide (p = NULL)) as [Hnull|Hnn];
    [|destruct (decide (Z.land (events ev) hup_mask <> 0)) as [Hm|Hm]].
  - eexists _, [_]. split; [apply Hskip; by left|].
    split; [by apply did_one|]. by repeat constructor.
  - destruct Hcell as [?|[s Hs]]; [done|]. apply hup_mask_spec in Hm.
    exists (closed_by ev p s w),
      [Load (Slot (data_ptr ev)) p;
       Cas (ConnState p) STATE_OK STATE_REMOTE_CLOSED s].
    split; [by apply handle_event_close|]. split.
    + unfold did, replay, replay1. simpl.
      by destruct (decide (s = STATE_OK)).
    + by repeat constructor.
  - rewrite hup_mask_spec in Hm.
    eexists _, [_]. split; [apply Hskip; by right|].
    split; [by apply did_one|]. by repeat constructor.
Qed.

Lemma for_events_run evs : forall w,
  Forall (mapped (mem w)) evs ->
  exists w2 acts,
    for_events evs w = Ok tt w2
    /\ did acts w w2 /\ Forall event_action acts
    /\ slot_loads acts = map data_ptr evs
    /\ kernel w2 = kernel w /\ errno w2 = errno w.
Proof.
  induction evs as [|ev rest IH]; intros w Hall.
  - exists w, []. split; [done|]. split; [apply did_nil|]. by repeat constructor.
  - inversion Hall as [|? ? Hev Hrest]; subst.
    destruct (handle_event_run ev w Hev)
      as (w1 & a1 & Hh & Hd1 & Hf1 & Hs1 & Hk1 & He1).
    assert (Hsh : shape (mem w) (mem w1)).
    { apply (doing_shape 0 0). exists a1. split; [done|].
      eapply Forall_impl; [exact Hf1|]. apply event_action_loop. }
    destruct (IH w1) as (w2 & a2 & Hfor & Hd2 & Hf2 & Hs2 & Hk2 & He2).
    { eapply Forall_impl; [exact Hrest|]. intros e. by apply shape_mapped. }
    exists w2, (a1 ++ a2). simpl. unfold bind. rewrite Hh.
    split; [done|]. split; [by eapply did_app|].
    split; [by apply Forall_app|]. split; [|split; congruence].
    unfold slot_loads in *. by rewrite omap_app, Hs1, Hs2.
Qed.

(** ** Batches *)

Lemma round_run epfd ack w evs k :
  kernel w = Ready evs :: k ->
  Forall (mapped (mem w)) (batch_of evs) ->
  is_Some (mem w !! Ack ack) ->
  exists w3 evacts,
    loop_body epfd ack w = Ok None w3
    /\ did (EpollWait epfd MAX_EVENTS (-1) (Z.of_nat (length (batch_of evs)))
              :: evacts ++ [Store (Ack ack) 1]) w w3
    /\ Forall event_action evacts
    /\ slot_loads evacts = map data_ptr (batch_of evs)
    /\ kernel w3 = kernel_after evs k.
Proof.
  intros Hk Hall Hack. rewrite (loop_body_ready _ _ _ _ _ Hk).
  set (w0 := waited epfd evs k w).
  destruct (for_events_run (batch_of evs) w0 Hall)
    as (w2 & evacts & Hfor & Hd & Hf & Hs & Hk2 & He2).
  assert (Hack2 : is_Some (mem w2 !! Ack ack)).
  { assert (Hsh : shape (mem w0) (mem w2)).
    { apply (doing_shape epfd ack). exists evacts. split; [done|].
      eapply Forall_impl; [exact Hf|]. apply event_action_loop. }
    by apply Hsh. }
  destruct Hack2 as [old Hold].
  exists (record (Store (Ack ack) 1) (poke (Ack ack) 1 w2)), evacts.
  split.
  { unfold bind. rewrite Hfor. unfold atomic_store. by rewrite Hold. }
  split; [|done].
  change (EpollWait epfd MAX_EVENTS (-1) (Z.of_nat (length (batch_of evs)))
            :: evacts ++ [Store (Ack ack) 1])
    with ([EpollWait epfd MAX_EVENTS (-1) (Z.of_nat (length (batch_of evs)))]
            ++ evacts ++ [Store (Ack ack) 1]).
  apply (did_app _ _ w w0); [by apply did_one|].
  apply (did_app _ _ w0 w2); [done|].
  apply did_one; [done | done | by eexists].
Qed.

Lemma capacity_pos : (Z.to_nat MAX_EVENTS <> 0)%nat.
Proof. unfold MAX_EVENTS. lia. Qed.

Lemma batch_of_length evs :
  length (batch_of evs) = (length evs `min` Z.to_nat MAX_EVENTS)%nat.
Proof. unfold batch_of. by rewrite length_take, Nat.min_comm. Qed.

Lemma drained_rounds epfd ack n evs acts :
  drained epfd ack n evs acts -> n = rounds_for evs.
Proof.
  unfold rounds_for. pose proof capacity_pos as Hpos.
  induction 1 as [evs evacts Hlen _ _|n evs evacts rest Hlen _ _ _ IH].
  - rewrite Nat.div_small by lia. done.
  - rewrite IH, length_drop. f_equal.
    replace (length evs - 1)%nat
      with ((length evs - Z.to_nat MAX_EVENTS - 1)
            + 1 * Z.to_nat MAX_EVENTS)%nat by lia.
    rewrite Nat.div_add by done. lia.
Qed.

Lemma drain_small epfd ack evs w k :
  (length evs <= Z.to_nat MAX_EVENTS)%nat ->
  kernel w = Ready evs :: k ->
  Forall (mapped (mem w)) evs ->
  is_Some (mem w !! Ack ack) ->
  exists w' acts,
    cgo_epoll_wait_loop 1 epfd ack w = Looping w'
    /\ kernel w' = k
    /\ did acts w w'
    /\ drained epfd ack 1 evs acts.
Proof.
  intros Hle Hk Hall Hack.
  assert (Hb : batch_of evs = evs) by (unfold batch_of; by rewrite take_ge).
  destruct (round_run epfd ack w evs k Hk)
    as (w3 & evacts & Hbody & Hd & Hf & Hs & Hk3); [by rewrite Hb | done |].
  rewrite Hb in *. unfold kernel_after in Hk3.
  rewrite decide_True in Hk3 by done.
  eexists w3, _. simpl. rewrite Hbody.
  split; [done|]. split; [done|]. split; [exact Hd|].
  by apply drained_last.
Qed.

Lemma drain epfd ack b : forall evs w k,
  (length evs <= b)%nat ->
  kernel w = Ready evs :: k ->
  Forall (mapped (mem w)) evs ->
  is_Some (mem w !! Ack ack) ->
  exists n w' acts,
    cgo_epoll_wait_loop n epfd ack w = Looping w'
    /\ kernel w' = k
    /\ did acts w w'
    /\ drained epfd ack n evs acts.
Proof.
  pose proof capacity_pos as Hpos.
  induction b as [|b IH]; intros evs w k Hb Hk Hall Hack.
  { exists 1%nat. apply drain_small; try done. lia. }
  destruct (decide (length evs <= Z.to_nat MAX_EVENTS)%nat) as [Hle|Hgt].
  { exists 1%nat. by apply drain_small. }
  destruct (round_run epfd ack w evs k Hk)
    as (w3 & evacts & Hbody & Hd & Hf & Hs & Hk3);
    [unfold batch_of; by apply Forall_take | done |].
  unfold kernel_after in Hk3. rewrite decide_False in Hk3 by done.
  assert (Hsh : shape (mem w) (mem w3)).
  { pose proof (loop_follows epfd ack 1 w) as Hfol. simpl in Hfol.
    rewrite Hbody in Hfol. by apply doing_shape in Hfol. }
  destruct (IH (drop (Z.to_nat MAX_EVENTS) evs) w3 k)
    as (n & w' & acts & Hloop & Hk' & Hd' & Hdr).
  { rewrite length_drop. lia. }
  { done. }
  { apply Forall_drop. eapply Forall_impl; [exact Hall|].
    intros e. by apply shape_mapped. }
  { by apply Hsh. }
  eexists (S n), w', _. simpl. rewrite Hbody.
  split; [done|]. split; [done|]. split.
  - eapply did_app; [exact Hd | exact Hd'].
  - rewrite batch_of_length. rewrite Nat.min_r by lia.
    rewrite Z2Nat.id by done.
    apply drained_more; [lia|done|done|done].
Qed.

(** C9. A ready set at the head of what is in store, with its events
    registered and the acknowledgement cell in memory. The round that takes
    it waits with capacity [MAX_EVENTS] and handles the batch the wait
    reported, the first [MAX_EVENTS] events at most, before its store of 1.
    The whole set is drained in [rounds_for evs] rounds, one batch of at
    most [MAX_EVENTS] events per round, each batch with its own wait and
    its own store, and these are two rounds or more when the set has more
    than [MAX_EVENTS] events. In any run every wait of the log was given
    the capacity [MAX_EVENTS] and returned at most that. *)
Theorem C9_batches_of_at_most_max_events epfd freeack_ptr w evs k :
  kernel w = Ready evs :: k ->
  Forall (mapped (mem w)) evs ->
  is_Some (mem w !! Ack freeack_ptr) ->
  (loop_body epfd freeack_ptr w
   = (for_events (batch_of evs) ;;;
      atomic_store (Ack freeack_ptr) 1 ;;; ret None) (waited epfd evs k w)
   /\ (length (batch_of evs) <= Z.to_nat MAX_EVENTS)%nat
   /\ batch_of evs = take 1024 evs)
  /\ (exists w' acts,
        cgo_epoll_wait_loop (rounds_for evs) epfd freeack_ptr w = Looping w'
        /\ kernel w' = k
        /\ did acts w w'
        /\ drained epfd freeack_ptr (rounds_for evs) evs acts)
  /\ ((Z.to_nat MAX_EVENTS < length evs)%nat -> (2 <= rounds_for evs)%nat)
  /\ forall rounds, exists acts,
       did acts w
         (status_world (cgo_epoll_wait_loop rounds epfd freeack_ptr w))
       /\ forall e m t n, EpollWait e m t n ∈ acts ->
            m = MAX_EVENTS /\ n <= MAX_EVENTS.
Proof.
  intros Hk Hall Hack. split; [|split; [|split]].
  - split; [by apply loop_body_ready|]. split; [|done].
    rewrite batch_of_length. lia.
  - destruct (drain epfd freeack_ptr (length evs) evs w k)
      as (n & w' & acts & Hloop & Hk' & Hd & Hdr); try done.
    pose proof (drained_rounds _ _ _ _ _ Hdr) as Hn. subst n.
    by exists w', acts.
  - intros Hgt. unfold rounds_for. pose proof capacity_pos as Hpos.
    assert (1 <= (length evs - 1) / Z.to_nat MAX_EVENTS)%nat; [|lia].
    apply Nat.div_le_lower_bound; [done|]. lia.
  - intros rounds.
    destruct (loop_follows epfd freeack_ptr rounds w) as (acts & Hd & Hf).
    exists acts. split; [done|]. intros e m t n Hin.
    rewrite Forall_forall in Hf. apply Hf in Hin. simpl in Hin. lia.
Qed.

(** ** What a run leaves alone *)

Lemma replay_dom acts : forall m,
  coherent acts m -> dom (replay acts m) = dom m.
Proof.
  induction acts as [|a rest IH]; intros m Hc; [done|].
  destruct Hc as [Hs Hc]. unfold replay in *. simpl. rewrite IH by done.
  unfold replay1.
  destruct a as [e mx t n|l v|l ex de fo|l v]; simpl in *; try done.
  - destruct (decide (fo = ex)); [|done].
    apply dom_insert_lookup_L. by eexists.
  - by apply dom_insert_lookup_L.
Qed.

Lemma loop_action_frame epfd ack a :
  loop_action epfd ack a ->
  (forall c, reads a <> Some (ConnFd c))
  /\ (forall l v, writes a = Some (l, v) ->
        (exists c, l = ConnState c) \/ l = Ack ack).
Proof.
  destruct a as [e mx t n| [] x | [] ex de fo | [] x ]; simpl; try tauto.
  - intros _. split; intros; discriminate.
  - intros _. split; intros; discriminate.
  - intros _. split; [intros; discriminate|]. intros l v.
    destruct (decide (fo = ex)); [|done]. intros [= <- _]. left. by eexists.
  - intros [-> ->]. split; [intros; discriminate|]. intros l v [= <- _].
    by right.
Qed.

(** X1. Whatever the run, the loop leaves the slots, the [fd] fields and
    the acknowledgement cells other than its own as they were, and no cell
    appears or disappears; in its log nothing reads an [fd] field, and
    every write is to a state cell or to its acknowledgement cell. *)
Theorem X1_run_frame rounds epfd freeack_ptr w :
  let w' := status_world (cgo_epoll_wait_loop rounds epfd freeack_ptr w) in
  (forall a, mem w' !! Slot a = mem w !! Slot a)
  /\ (forall c, mem w' !! ConnFd c = mem w !! ConnFd c)
  /\ (forall a, a <> freeack_ptr -> mem w' !! Ack a = mem w !! Ack a)
  /\ dom (mem w') = dom (mem w)
  /\ exists acts,
       did acts w w'
       /\ forall a, a ∈ acts ->
            (forall c, reads a <> Some (ConnFd c))
            /\ (forall l v, writes a = Some (l, v) ->
                  (exists c, l = ConnState c) \/ l = Ack freeack_ptr).
Proof.
  intros w'. destruct (loop_follows epfd freeack_ptr rounds w)
    as (acts & Hd & Hf). fold w' in Hd.
  assert (Hfr : forall a, a ∈ acts ->
            (forall c, reads a <> Some (ConnFd c))
            /\ (forall l v, writes a = Some (l, v) ->
                  (exists c, l = ConnState c) \/ l = Ack freeack_ptr)).
  { intros a Ha. eapply loop_action_frame. rewrite Forall_forall in Hf. eauto. }
  assert (Hkeep : forall l,
            (forall c, l <> ConnState c) -> l <> Ack freeack_ptr ->
            mem w' !! l = mem w !! l).
  { intros l Hl1 Hl2. destruct Hd as (_ & -> & _). apply replay_frame.
    apply Forall_forall. intros a Ha v Hw.
    destruct (Hfr a Ha) as [_ Hwr]. destruct (Hwr _ _ Hw) as [[c ->]| ->].
    - by eapply Hl1.
    - done. }
  split; [|split; [|split; [|split]]].
  - intros a. by apply Hkeep.
  - intros c. by apply Hkeep.
  - intros a Ha. apply Hkeep; congruence.
  - destruct Hd as (_ & -> & Hc). by apply replay_dom.
  - by exists acts.
Qed.

(** ** Runs in registered worlds *)

Lemma registered_shape ack w w' :
  shape (mem w) (mem w') ->
  Forall (in_store_mapped (mem w)) (kernel w') ->
  is_Some (mem w !! Ack ack) ->
  registered ack w'.
Proof.
  intros Hsh Hk Hack. split; [|by apply Hsh].
  eapply Forall_impl; [exact Hk|]. intros [evs|e]; simpl; [|done].
  intros Hall. eapply Forall_impl; [exact Hall|].
  intros ev. by apply shape_mapped.
Qed.

Lemma loop_body_shape epfd ack w :
  shape (mem w) (mem (world_of (loop_body epfd ack w))).
Proof.
  pose proof (loop_follows epfd ack 1 w) as Hfol. simpl in Hfol.
  apply doing_shape in Hfol.
  by destruct (loop_body epfd ack w) as [[e|] w1| |].
Qed.

Lemma event_steps_app evs1 acts1 evs2 acts2 :
  event_steps evs1 acts1 -> event_steps evs2 acts2 ->
  event_steps (evs1 ++ evs2) (acts1 ++ acts2).
Proof.
  induction 1; intros H2; simpl; [done| |].
  - apply steps_skip; auto.
  - apply steps_cas; auto.
Qed.

Lemma handle_event_steps ev w :
  mapped (mem w) ev ->
  exists w1 acts,
    handle_event ev w = Ok tt w1
    /\ did acts w w1
    /\ event_steps [ev] acts
    /\ kernel w1 = kernel w /\ errno w1 = errno w.
Proof.
  intros (p & Hp & Hcell).
  assert (Hskip : p = NULL \/ ~ signals_close ev ->
    handle_event ev w = Ok tt (record (Load (Slot (data_ptr ev)) p) w)).
  { intros Hor. unfold handle_event, bind, atomic_load. rewrite Hp.
    destruct (decide (p = NULL)); [done|].
    destruct Hor as [?|Hno]; [done|].
    by rewrite decide_False by (by rewrite hup_mask_spec). }
  destruct (decide (p <> NULL /\ signals_close ev)) as [[Hnn Hsig]|Hno].
  - destruct Hcell as [?|[s Hs]]; [done|].
    exists (closed_by ev p s w),
      [Load (Slot (data_ptr ev)) p;
       Cas (ConnState p) STATE_OK STATE_REMOTE_CLOSED s].
    split; [by apply handle_event_close|]. split.
    + unfold did, replay, replay1. simpl.
      by destruct (decide (s = STATE_OK)).
    + split; [|done]. apply steps_cas; [done|done|constructor].
  - assert (Hor : p = NULL \/ ~ signals_close ev).
    { destruct (decide (p = NULL)); [by left|]. right. intros Hs. by apply Hno. }
    eexists _, [_]. split; [by apply Hskip|].
    split; [by apply did_one|]. split; [|done].
    apply steps_skip; [done|constructor].
Qed.

Lemma event_steps_actions evs acts :
  event_steps evs acts -> Forall event_action acts.
Proof. induction 1; repeat constructor; auto. Qed.

Lemma for_events_steps evs : forall w,
  Forall (mapped (mem w)) evs ->
  exists w2 acts,
    for_events evs w = Ok tt w2
    /\ did acts w w2
    /\ event_steps evs acts
    /\ kernel w2 = kernel w /\ errno w2 = errno w.
Proof.
  induction evs as [|ev rest IH]; intros w Hall.
  - exists w, []. split; [done|]. split; [apply did_nil|].
    split; [constructor|done].
  - inversion Hall as [|? ? Hev Hrest]; subst.
    destruct (handle_event_steps ev w Hev)
      as (w1 & a1 & Hh & Hd1 & Hs1 & Hk1 & He1).
    assert (Hsh : shape (mem w) (mem w1)).
    { apply (doing_shape 0 0). exists a1. split; [done|].
      eapply Forall_impl; [by eapply event_steps_actions|].
      apply event_action_loop. }
    destruct (IH w1) as (w2 & a2 & Hfor & Hd2 & Hs2 & Hk2 & He2).
    { eapply Forall_impl; [exact Hrest|]. intros e. by apply shape_mapped. }
    exists w2, (a1 ++ a2). simpl. unfold bind. rewrite Hh.
    split; [done|]. split; [by eapply did_app|].
    split; [|split; congruence].
    by apply (event_steps_app [ev] a1 rest a2).
Qed.

Lemma round_steps epfd ack w evs k :
  kernel w = Ready evs :: k ->
  Forall (mapped (mem w)) (batch_of evs) ->
  is_Some (mem w !! Ack ack) ->
  exists w3 evacts,
    loop_body epfd ack w = Ok None w3
    /\ did (EpollWait epfd MAX_EVENTS (-1) (Z.of_nat (length (batch_of evs)))
              :: evacts ++ [Store (Ack ack) 1]) w w3
    /\ event_steps (batch_of evs) evacts
    /\ kernel w3 = kernel_after evs k.
Proof.
  intros Hk Hall Hack. rewrite (loop_body_ready _ _ _ _ _ Hk).
  set (w0 := waited epfd evs k w).
  destruct (for_events_steps (batch_of evs) w0 Hall)
    as (w2 & evacts & Hfor & Hd & Hs & Hk2 & He2).
  assert (Hack2 : is_Some (mem w2 !! Ack ack)).
  { assert (Hsh : shape (mem w0) (mem w2)).
    { apply (doing_shape epfd ack). exists evacts. split; [done|].
      eapply Forall_impl; [by eapply event_steps_actions|].
      apply event_action_loop. }
    by apply Hsh. }
  destruct Hack2 as [old Hold].
  exists (record (Store (Ack ack) 1) (poke (Ack ack) 1 w2)), evacts.
  split.
  { unfold bind. rewrite Hfor. unfold atomic_store. by rewrite Hold. }
  split; [|done].
  change (EpollWait epfd MAX_EVENTS (-1) (Z.of_nat (length (batch_of evs)))
            :: evacts ++ [Store (Ack ack) 1])
    with ([EpollWait epfd MAX_EVENTS (-1) (Z.of_nat (length (batch_of evs)))]
            ++ evacts ++ [Store (Ack ack) 1]).
  apply (did_app _ _ w w0); [by apply did_one|].
  apply (did_app _ _ w0 w2); [done|].
  apply did_one; [done | done | by eexists].
Qed.

Lemma loop_parks epfd ack w more :
  kernel w = [] ->
  cgo_epoll_wait_loop (S more) epfd ack w = Parked w.
Proof.
  intros Hk. simpl. unfold loop_body, bind.
  pose proof (epoll_wait_cases epfd w) as Hw. rewrite Hk in Hw.
  by rewrite Hw.
Qed.

Lemma registered_after ack w w3 evs k :
  registered ack w ->
  kernel w = Ready evs :: k ->
  shape (mem w) (mem w3) ->
  kernel w3 = kernel_after evs k ->
  registered ack w3.
Proof.
  intros [Hk Hack] Ek Hsh Hk3. rewrite Ek in Hk.
  apply Forall_cons in Hk as [Hevs Hk]. simpl in Hevs.
  apply (registered_shape ack w w3); [done| |done].
  rewrite Hk3. unfold kernel_after.
  destruct (decide (length evs <= Z.to_nat MAX_EVENTS)%nat); [done|].
  apply Forall_cons. split; [|done]. simpl. by apply Forall_drop.
Qed.

(** A run in a registered world: it does not fault, its log is the log of
    the rounds that take what is in store from what it was to what it is,
    and the world it is in is registered. *)
Lemma loop_registered epfd ack rounds : forall w,
  registered ack w ->
  exists acts,
    did acts w (status_world (cgo_epoll_wait_loop rounds epfd ack w))
    /\ rounds_log epfd ack (kernel w) acts
         (kernel (status_world (cgo_epoll_wait_loop rounds epfd ack w)))
    /\ registered ack (status_world (cgo_epoll_wait_loop rounds epfd ack w))
    /\ (forall x, cgo_epoll_wait_loop rounds epfd ack w <> Crashed x).
Proof.
  induction rounds as [|n IH]; intros w Hreg.
  { exists []. split; [apply did_nil|]. split; [constructor|]. done. }
  destruct (kernel w) as [|[evs|e] k] eqn:Ek.
  - rewrite (loop_parks epfd ack w n Ek). simpl. rewrite Ek.
    exists []. split; [apply did_nil|]. split; [constructor|]. done.
  - destruct Hreg as [Hk Hack].
    assert (Hevs : Forall (mapped (mem w)) evs).
    { rewrite Ek in Hk. by apply Forall_cons in Hk as [Hevs _]. }
    destruct (round_steps epfd ack w evs k Ek)
      as (w3 & evacts & Hbody & Hd & Hs & Hk3);
      [unfold batch_of; by apply Forall_take | done |].
    assert (Hreg3 : registered ack w3).
    { apply (registered_after ack w w3 evs k); try done.
      pose proof (loop_body_shape epfd ack w) as Hsh.
      by rewrite Hbody in Hsh. }
    destruct (IH w3 Hreg3) as (a2 & Hd2 & Hl2 & Hreg2 & Hnc).
    simpl. rewrite Hbody. eexists. split; [by eapply did_app|].
    split; [|done]. simpl. rewrite <- app_assoc. simpl.
    apply rounds_batch; [done|]. by rewrite <- Hk3.
  - destruct Hreg as [Hk Hack].
    assert (Hreg1 : registered ack (failed_wait epfd e k w)).
    { split; [|done]. simpl. rewrite Ek in Hk.
      by apply Forall_cons in Hk as [_ Hk]. }
    assert (Hd1 : did [EpollWait epfd MAX_EVENTS (-1) (-1)] w
                    (failed_wait epfd e k w)) by (by apply did_one).
    simpl. rewrite (loop_body_failure _ _ _ _ _ Ek).
    destruct (decide (e = EINTR)) as [->|Hne].
    + destruct (IH _ Hreg1) as (a2 & Hd2 & Hl2 & Hreg2 & Hnc).
      eexists. split; [by eapply did_app|]. split; [|done].
      simpl. by apply rounds_interrupted.
    + simpl. eexists. split; [exact Hd1|]. split; [|done].
      by apply rounds_fatal.
Qed.

(** X2. In a registered world — every event in store is registered and the
    acknowledgement cell is in memory — no run of the loop faults, however
    many rounds it is observed for, and the world it is in is registered
    still. *)
Theorem X2_registered_run_never_faults rounds epfd freeack_ptr w :
  registered freeack_ptr w ->
  (forall x, cgo_epoll_wait_loop rounds epfd freeack_ptr w <> Crashed x)
  /\ registered freeack_ptr
       (status_world (cgo_epoll_wait_loop rounds epfd freeack_ptr w)).
Proof.
  intros Hreg.
  destruct (loop_registered epfd freeack_ptr rounds w Hreg)
    as (acts & _ & _ & Hreg' & Hnc).
  done.
Qed.

(** X3. In a registered world the log of a run is the log of the rounds
    that take what is in store from what it was at the start to what it is
    at the end, round by round in the order of what was in store: a wait
    that is interrupted; a wait that fails otherwise, which is the last
    action; or a wait with capacity [MAX_EVENTS] that reports the batch at
    the head of what is in store, followed, for each event of this batch
    and in their order, by the load of the slot of the event and, exactly
    when the slot held an address that is not null and the event signals a
    close, by the compare-exchange on the state cell at the address just
    loaded, and closed by the store of 1 to the acknowledgement cell. *)
Theorem X3_log_is_rounds rounds epfd freeack_ptr w :
  registered freeack_ptr w ->
  exists acts,
    did acts w (status_world (cgo_epoll_wait_loop rounds epfd freeack_ptr w))
    /\ rounds_log epfd freeack_ptr (kernel w) acts
         (kernel (status_world
                    (cgo_epoll_wait_loop rounds epfd freeack_ptr w))).
Proof.
  intros Hreg.
  destruct (loop_registered epfd freeack_ptr rounds w Hreg)
    as (acts & Hd & Hl & _).
  by exists acts.
Qed.

(** ** The effect of a batch and of a run on memory *)

Lemma targeted_slots m m' evs c :
  (forall a, m' !! Slot a = m !! Slot a) ->
  targeted m' evs c <-> targeted m evs c.
Proof.
  intros Hs. unfold targeted. rewrite !Exists_exists.
  split; intros (ev & Hin & Hslot & Hrest); exists ev; split; try done;
    split; try done; by rewrite ?Hs in *.
Qed.

Lemma targeted_app m evs1 evs2 c :
  targeted m (evs1 ++ evs2) c <-> targeted m evs1 c \/ targeted m evs2 c.
Proof. unfold targeted. apply Exists_app. Qed.

Lemma marked_nil m l : marked m [] l = m !! l.
Proof.
  by destruct l as [a|c|c|a].
Qed.

Lemma effect_refl ack m : effect ack false [] m m.
Proof.
  intros l. rewrite <- (marked_nil m l).
  destruct l as [a|c|c|a]; simpl; try done. by destruct (decide (a = ack)).
Qed.

Lemma effect_slots ack stored evs m m' :
  effect ack stored evs m m' -> forall a, m' !! Slot a = m !! Slot a.
Proof. intros H a. by rewrite (H (Slot a)). Qed.

Lemma effect_trans ack s1 s2 evs1 evs2 m1 m2 m3 :
  effect ack s1 evs1 m1 m2 -> effect ack s2 evs2 m2 m3 ->
  effect ack (s1 || s2) (evs1 ++ evs2) m1 m3.
Proof.
  intros H1 H2 l. rewrite (H2 l).
  pose proof (effect_slots _ _ _ _ _ H1) as Hs.
  destruct l as [a|c|c|a]; simpl.
  - by rewrite (H1 (Slot a)).
  - by rewrite (H1 (ConnFd c)).
  - rewrite (H1 (ConnState c)). simpl.
    pose proof (targeted_slots m1 m2 evs2 c Hs) as Ht2.
    pose proof (targeted_app m1 evs1 evs2 c) as Happ.
    destruct (decide (targeted m1 evs1 c /\ m1 !! ConnState c = Some STATE_OK))
      as [[Ht Hok]|Hn1].
    + rewrite decide_False by (intros [_ ?]; discriminate).
      rewrite decide_True; [done|]. split; [|done]. apply Happ. by left.
    + destruct (decide (targeted m2 evs2 c
                        /\ m1 !! ConnState c = Some STATE_OK)) as [[Ht Hok]|Hn2].
      * rewrite decide_True; [done|]. split; [|done]. apply Happ. right.
        by apply Ht2.
      * rewrite decide_False; [done|]. intros [Ht Hok].
        apply Happ in Ht as [Ht|Ht]; [by apply Hn1|].
        apply Hn2. split; [|done]. by apply Ht2.
  - rewrite (H1 (Ack a)). simpl.
    destruct (decide (a = ack)); [|done]. by destruct s1, s2.
Qed.

Lemma effect_shape ack stored evs m m' :
  effect ack stored evs m m' -> shape m m'.
Proof.
  intros H. split; [by eapply effect_slots|].
  intros l Hsome. rewrite (H l). destruct l as [a|c|c|a]; simpl; try done.
  - by destruct (decide _).
  - destruct (decide (a = ack)); [|done]. by destruct stored.
Qed.

Lemma skip_effect ack m ev v :
  m !! Slot (data_ptr ev) = Some v -> v = NULL \/ ~ signals_close ev ->
  effect ack false [ev] m m.
Proof.
  intros Hslot Hor l. destruct l as [a|c|c|a]; simpl; try done.
  - rewrite decide_False; [done|]. intros [Ht _].
    apply Exists_cons in Ht as [(Hc & Hnn & Hsig)|Ht];
      [|by apply Exists_nil in Ht].
    rewrite Hslot in Hc. injection Hc as ->. by destruct Hor.
  - by destruct (decide (a = ack)).
Qed.

Lemma cas_effect ack m ev c s :
  m !! Slot (data_ptr ev) = Some c -> c <> NULL -> signals_close ev ->
  m !! ConnState c = Some s ->
  effect ack false [ev] m
    (replay1 m (Cas (ConnState c) STATE_OK STATE_REMOTE_CLOSED s)).
Proof.
  intros Hslot Hnn Hsig Hs l. unfold replay1. simpl.
  assert (Ht : forall c', targeted m [ev] c' <-> c' = c).
  { intros c'. unfold targeted. rewrite Exists_cons, Exists_nil. split.
    - intros [(Hc & _)|[]]. congruence.
    - intros ->. by left. }
  destruct (decide (s = STATE_OK)) as [->|Hne].
  - destruct l as [a|c'|c'|a]; simpl.
    + by rewrite lookup_insert_ne.
    + by rewrite lookup_insert_ne.
    + destruct (decide (c' = c)) as [->|Hc'].
      * rewrite lookup_insert_eq. rewrite decide_True; [done|].
        split; [by apply Ht|done].
      * rewrite lookup_insert_ne by congruence.
        rewrite decide_False; [done|]. intros [H _]. by apply Ht in H.
    + rewrite lookup_insert_ne by done. by destruct (decide (a = ack)).
  - destruct l as [a|c'|c'|a]; simpl; try done.
    + rewrite decide_False; [done|]. intros [H Hok]. apply Ht in H as ->.
      congruence.
    + by destruct (decide (a = ack)).
Qed.

Lemma steps_effect ack evs acts :
  event_steps evs acts -> forall m,
  coherent acts m -> effect ack false evs m (replay acts m).
Proof.
  induction 1 as [|ev v rest acts Hor _ IH|ev c s rest acts Hnn Hsig _ IH];
    intros m Hc.
  - apply effect_refl.
  - destruct Hc as [Hslot Hc].
    apply (effect_trans ack false false [ev] rest m m).
    + by eapply skip_effect.
    + by apply IH.
  - destruct Hc as [Hslot [Hs Hc]].
    apply (effect_trans ack false false [ev] rest m
             (replay1 m (Cas (ConnState c) STATE_OK STATE_REMOTE_CLOSED s))).
    + by apply cas_effect.
    + by apply IH.
Qed.

Lemma store_effect ack m : effect ack true [] m (<[Ack ack := 1]> m).
Proof.
  intros l. destruct (decide (l = Ack ack)) as [->|Hne].
  - rewrite lookup_insert_eq. simpl. by rewrite decide_True.
  - rewrite lookup_insert_ne by done. rewrite <- (marked_nil m l).
    destruct l as [a|c|c|a]; simpl; try done.
    rewrite decide_False; [done|congruence].
Qed.

Lemma for_events_effect ack evs w :
  Forall (mapped (mem w)) evs ->
  exists w2,
    for_events evs w = Ok tt w2
    /\ kernel w2 = kernel w /\ errno w2 = errno w
    /\ effect ack false evs (mem w) (mem w2).
Proof.
  intros Hall.
  destruct (for_events_steps evs w Hall)
    as (w2 & acts & Hfor & (_ & Hm & Hc) & Hs & Hk & He).
  exists w2. split; [done|]. split; [done|]. split; [done|].
  rewrite Hm. by apply steps_effect.
Qed.

(** X4. A batch of registered events, handled from beginning to end,
    leaves memory as follows: a state cell is REMOTE_CLOSED if it was OK
    and some event of the batch signals a close through a slot that holds
    its address, and every other cell — the state cells that were not OK
    or not so targeted, the slots, the [fd] fields, the acknowledgement
    cells — holds what it held. *)
Theorem X4_batch_effect evs w :
  Forall (mapped (mem w)) evs ->
  exists w2,
    for_events evs w = Ok tt w2
    /\ forall l, mem w2 !! l = marked (mem w) evs l.
Proof.
  intros Hall.
  destruct (for_events_effect 0 evs w Hall) as (w2 & Hfor & _ & _ & Heff).
  exists w2. split; [done|]. intros l. rewrite (Heff l).
  destruct l as [a|c|c|a]; simpl; try done. by destruct (decide (a = 0)).
Qed.

Lemma marked_same_events m evs evs' l :
  (forall ev, ev ∈ evs <-> ev ∈ evs') ->
  marked m evs l = marked m evs' l.
Proof.
  intros Hsame. destruct l as [a|c|c|a]; simpl; try done.
  assert (Ht : targeted m evs c <-> targeted m evs' c).
  { unfold targeted. rewrite !Exists_exists.
    split; intros (ev & Hin & H); exists ev; split; try done; by apply Hsame. }
  destruct (decide (targeted m evs c /\ m !! ConnState c = Some STATE_OK))
    as [[H1 H2]|Hn].
  - rewrite decide_True; [done|]. split; [by apply Ht|done].
  - rewrite decide_False; [done|]. intros [H1 H2]. apply Hn.
    split; [by apply Ht|done].
Qed.

(** X5. The memory a batch leaves depends on which events are in it, not
    on their order or on how often each occurs: two batches of registered
    events with the same events leave the same memory. *)
Theorem X5_batch_order_irrelevant evs evs' w :
  Forall (mapped (mem w)) evs ->
  (forall ev, ev ∈ evs <-> ev ∈ evs') ->
  exists w2 w2',
    for_events evs w = Ok tt w2
    /\ for_events evs' w = Ok tt w2'
    /\ mem w2 = mem w2'.
Proof.
  intros Hall Hsame.
  assert (Hall' : Forall (mapped (mem w)) evs').
  { rewrite Forall_forall in *. intros ev Hin. apply Hall. by apply Hsame. }
  destruct (for_events_effect 0 evs w Hall) as (w2 & Hfor & _ & _ & Heff).
  destruct (for_events_effect 0 evs' w Hall') as (w2' & Hfor' & _ & _ & Heff').
  exists w2, w2'. split; [done|]. split; [done|].
  apply map_eq. intros l. rewrite (Heff l), (Heff' l).
  destruct l as [a|c|c|a]; try done.
  apply (marked_same_events (mem w) evs evs' (ConnState c) Hsame).
Qed.

(** ** Using up what is in store *)

Lemma rounds_for_small evs :
  (length evs <= Z.to_nat MAX_EVENTS)%nat -> rounds_for evs = 1%nat.
Proof.
  intros Hle. unfold rounds_for. pose proof capacity_pos.
  by rewrite Nat.div_small by lia.
Qed.

Lemma rounds_for_more evs :
  (Z.to_nat MAX_EVENTS < length evs)%nat ->
  rounds_for evs = S (rounds_for (drop (Z.to_nat MAX_EVENTS) evs)).
Proof.
  intros Hgt. unfold rounds_for. pose proof capacity_pos as Hpos.
  rewrite length_drop. f_equal.
  replace (length evs - 1)%nat
    with ((length evs - Z.to_nat MAX_EVENTS - 1)
          + 1 * Z.to_nat MAX_EVENTS)%nat by lia.
  rewrite Nat.div_add by done. lia.
Qed.

Lemma round_effect epfd ack w evs k :
  kernel w = Ready evs :: k ->
  Forall (mapped (mem w)) (batch_of evs) ->
  is_Some (mem w !! Ack ack) ->
  exists w3,
    loop_body epfd ack w = Ok None w3
    /\ kernel w3 = kernel_after evs k
    /\ effect ack true (batch_of evs) (mem w) (mem w3).
Proof.
  intros Hk Hall Hack. rewrite (loop_body_ready _ _ _ _ _ Hk).
  set (w0 := waited epfd evs k w).
  destruct (for_events_effect ack (batch_of evs) w0 Hall)
    as (w2 & Hfor & Hk2 & He2 & Heff).
  assert (Hack2 : is_Some (mem w2 !! Ack ack)).
  { apply effect_shape in Heff. by apply Heff. }
  destruct Hack2 as [old Hold].
  exists (record (Store (Ack ack) 1) (poke (Ack ack) 1 w2)).
  split; [|split; [done|]].
  - unfold bind. rewrite Hfor. unfold atomic_store. by rewrite Hold.
  - rewrite <- (app_nil_r (batch_of evs)).
    apply (effect_trans ack false true _ _ (mem w) (mem w2)); [done|].
    apply store_effect.
Qed.

(** ** The acknowledgement comes after the whole batch *)

(** C2. A wait that finds a ready set, empty or not, in a world where the
    events of its batch are registered and the acknowledgement cell is in
    memory. The wait returns the number [n >= 0] of events of the batch;
    the [for] loop handles them all, in order, each by its steps, and
    leaves memory with the effect of the whole batch and the
    acknowledgement cell as it was; only then comes the store of 1 to the
    acknowledgement cell, the last action of the round, which leaves the
    state cells as the events left them. Whatever the run, no action of the
    loop reads an acknowledgement cell, and the only write to one is the
    store of 1 to [freeack_ptr]. *)
Theorem C2_ack_after_batch epfd freeack_ptr w evs k :
  kernel w = Ready evs :: k ->
  Forall (mapped (mem w)) (batch_of evs) ->
  is_Some (mem w !! Ack freeack_ptr) ->
  let n := Z.of_nat (length (batch_of evs)) in
  let w1 := waited epfd evs k w in
  exists w2 evacts,
    let w3 :=
      record (Store (Ack freeack_ptr) 1) (poke (Ack freeack_ptr) 1 w2) in
    epoll_wait epfd MAX_EVENTS (-1) w = Ok (n, batch_of evs) w1
    /\ 0 <= n
    /\ for_events (take (Z.to_nat n) (batch_of evs)) w1 = Ok tt w2
    /\ did evacts w1 w2
    /\ event_steps (batch_of evs) evacts
    /\ effect freeack_ptr false (batch_of evs) (mem w) (mem w2)
    /\ mem w2 !! Ack freeack_ptr = mem w !! Ack freeack_ptr
    /\ loop_body epfd freeack_ptr w = Ok None w3
    /\ log w3 = log w1 ++ evacts ++ [Store (Ack freeack_ptr) 1]
    /\ effect freeack_ptr true (batch_of evs) (mem w) (mem w3)
    /\ mem w3 !! Ack freeack_ptr = Some 1
    /\ (forall c, mem w3 !! ConnState c = mem w2 !! ConnState c)
    /\ forall rounds, exists all,
         did all w
           (status_world (cgo_epoll_wait_loop rounds epfd freeack_ptr w))
         /\ forall a, a ∈ all ->
              (forall x, reads a <> Some (Ack x))
              /\ (forall x v, writes a = Some (Ack x, v) ->
                    x = freeack_ptr /\ v = 1).
Proof.
  intros Hk Hall Hack n w1.
  destruct (for_events_steps (batch_of evs) w1 Hall)
    as (w2 & evacts & Hfor & Hd & Hs & Hk2 & He2).
  assert (Heff : effect freeack_ptr false (batch_of evs) (mem w) (mem w2)).
  { destruct Hd as (_ & -> & Hc). by apply steps_effect. }
  assert (Hkeep : mem w2 !! Ack freeack_ptr = mem w !! Ack freeack_ptr).
  { rewrite (Heff (Ack freeack_ptr)). by rewrite decide_True. }
  assert (Htake : take (Z.to_nat n) (batch_of evs) = batch_of evs).
  { unfold n. rewrite Nat2Z.id. by apply take_ge. }
  exists w2, evacts. intros w3.
  split; [|split; [|split; [|split; [|split; [|split; [|split;
    [|split; [|split; [|split; [|split; [|split]]]]]]]]]]].
  - pose proof (epoll_wait_cases epfd w) as Hw. by rewrite Hk in Hw.
  - unfold n. lia.
  - by rewrite Htake.
  - exact Hd.
  - exact Hs.
  - exact Heff.
  - exact Hkeep.
  - rewrite (loop_body_ready _ _ _ _ _ Hk). unfold bind. fold w1.
    rewrite Hfor. unfold atomic_store. rewrite Hkeep.
    destruct Hack as [old ->]. done.
  - destruct Hd as (Hl & _). simpl. rewrite Hl. by rewrite <- app_assoc.
  - rewrite <- (app_nil_r (batch_of evs)).
    apply (effect_trans freeack_ptr false true _ _ (mem w) (mem w2));
      [done|]. apply store_effect.
  - simpl. apply lookup_insert_eq.
  - intros c. simpl. by apply lookup_insert_ne.
  - intros rounds.
    destruct (loop_follows epfd freeack_ptr rounds w) as (all & Hdl & Hf).
    exists all. split; [done|]. intros a Ha.
    eapply loop_action_ack. rewrite Forall_forall in Hf. eauto.
Qed.

(** ** Ready sets, one after the other *)

Lemma drain_effect epfd ack b : forall evs w k,
  (length evs <= b)%nat ->
  kernel w = Ready evs :: k ->
  Forall (mapped (mem w)) evs ->
  is_Some (mem w !! Ack ack) ->
  exists w',
    cgo_epoll_wait_loop (rounds_for evs) epfd ack w = Looping w'
    /\ kernel w' = k
    /\ effect ack true evs (mem w) (mem w').
Proof.
  assert (Hsmall : forall evs w k,
    (length evs <= Z.to_nat MAX_EVENTS)%nat ->
    kernel w = Ready evs :: k ->
    Forall (mapped (mem w)) evs ->
    is_Some (mem w !! Ack ack) ->
    exists w',
      cgo_epoll_wait_loop (rounds_for evs) epfd ack w = Looping w'
      /\ kernel w' = k
      /\ effect ack true evs (mem w) (mem w')).
  { intros evs w k Hle Hk Hall Hack.
    assert (Hb : batch_of evs = evs) by (unfold batch_of; by rewrite take_ge).
    destruct (round_effect epfd ack w evs k Hk) as (w3 & Hbody & Hk3 & Heff);
      [by rewrite Hb | done |].
    rewrite Hb in Heff. unfold kernel_after in Hk3.
    rewrite decide_True in Hk3 by done.
    exists w3. rewrite rounds_for_small by done. simpl. by rewrite Hbody. }
  induction b as [|b IH]; intros evs w k Hb Hk Hall Hack.
  { apply Hsmall; try done. lia. }
  destruct (decide (length evs <= Z.to_nat MAX_EVENTS)%nat) as [Hle|Hgt].
  { by apply Hsmall. }
  pose proof capacity_pos as Hpos.
  destruct (round_effect epfd ack w evs k Hk) as (w3 & Hbody & Hk3 & Heff);
    [unfold batch_of; by apply Forall_take | done |].
  unfold kernel_after in Hk3. rewrite decide_False in Hk3 by done.
  pose proof (effect_shape _ _ _ _ _ Heff) as Hsh.
  destruct (IH (drop (Z.to_nat MAX_EVENTS) evs) w3 k)
    as (w' & Hloop & Hk' & Heff').
  { rewrite length_drop. lia. }
  { done. }
  { apply Forall_drop. eapply Forall_impl; [exact Hall|].
    intros e. by apply shape_mapped. }
  { by apply Hsh. }
  exists w'. rewrite rounds_for_more by lia. simpl. rewrite Hbody.
  split; [done|]. split; [done|].
  rewrite <- (take_drop (Z.to_nat MAX_EVENTS) evs).
  apply (effect_trans ack true true _ _ (mem w) (mem w3)); done.
Qed.

Lemma drains_script epfd ack rest k : forall w,
  kernel w = k ++ rest ->
  registered ack w ->
  Forall calm k ->
  exists w',
    cgo_epoll_wait_loop (script_rounds k) epfd ack w = Looping w'
    /\ kernel w' = rest
    /\ registered ack w'
    /\ effect ack (existsb is_ready k) (all_events k) (mem w) (mem w').
Proof.
  induction k as [|[evs|e] k IH]; intros w Hk [Hreg Hack] Hcalm.
  - exists w. split; [done|]. split; [done|]. split; [done|].
    apply effect_refl.
  - rewrite Hk in Hreg. apply Forall_cons in Hreg as [Hevs Hreg].
    apply Forall_cons in Hcalm as [_ Hcalm]. simpl in Hevs.
    destruct (drain_effect epfd ack (length evs) evs w (k ++ rest))
      as (w1 & Hloop & Hk1 & Heff); try done.
    destruct (IH w1 Hk1) as (w' & Hloop' & Hk' & Hreg' & Heff'); [|done|].
    { apply (registered_shape ack w w1);
        [by eapply effect_shape | by rewrite Hk1 | done]. }
    exists w'. split; [|split; [done|split; [done|]]].
    + change (script_rounds (Ready evs :: k))
        with (rounds_for evs + script_rounds k)%nat.
      by rewrite loop_plus, Hloop.
    + apply (effect_trans ack true (existsb is_ready k) evs (all_events k)
               (mem w) (mem w1)); done.
  - rewrite Hk in Hreg. apply Forall_cons in Hreg as [_ Hreg].
    apply Forall_cons in Hcalm as [He Hcalm]. simpl in He. subst e.
    pose proof (loop_body_failure epfd ack w EINTR (k ++ rest) Hk) as Hbody.
    rewrite decide_True in Hbody by done.
    destruct (IH (failed_wait epfd EINTR (k ++ rest) w))
      as (w' & Hloop' & Hk' & Hreg' & Heff');
      [done | by split | done |].
    exists w'. split; [|done].
    change (script_rounds (Failure EINTR :: k)) with (S (script_rounds k)).
    simpl. by rewrite Hbody.
Qed.

(** X6. In a registered world with nothing in store but ready sets and
    interruptions, the loop uses up all that is in store in
    [script_rounds] rounds — one per interruption, one per batch of at most
    [MAX_EVENTS] events — and from the next round on it is parked in the
    wait. The memory it then leaves is the one all the events of the
    ready sets together make: a state cell that was OK and that one of them
    targets is REMOTE_CLOSED, the acknowledgement cell holds 1 if a ready
    set was in store, and every other cell holds what it held. *)
Theorem X6_run_uses_up_store epfd freeack_ptr w :
  registered freeack_ptr w ->
  Forall calm (kernel w) ->
  exists w',
    cgo_epoll_wait_loop (script_rounds (kernel w)) epfd freeack_ptr w
    = Looping w'
    /\ kernel w' = []
    /\ effect freeack_ptr (existsb is_ready (kernel w))
         (all_events (kernel w)) (mem w) (mem w')
    /\ forall more,
         cgo_epoll_wait_loop (script_rounds (kernel w) + S more)
           epfd freeack_ptr w
         = Parked w'.
Proof.
  intros Hreg Hcalm.
  destruct (drains_script epfd freeack_ptr [] (kernel w) w)
    as (w' & Hloop & Hk & _ & Heff); try done.
  { by rewrite app_nil_r. }
  exists w'. split; [done|]. split; [done|]. split; [done|].
  intros more. rewrite loop_plus, Hloop. by apply loop_parks.
Qed.

(** X7. In a registered world where a failure of the wait other than an
    interruption comes after ready sets and interruptions only, the call
    returns the [errno] of that failure in the round after the ones that
    use up what comes before it. Everything before the failure has had
    its effect on memory, the acknowledgement included; what was in store
    after the failure is in store still, and none of its events has been
    handled. *)
Theorem X7_failure_after_batches epfd freeack_ptr w pre e post :
  registered freeack_ptr w ->
  kernel w = pre ++ Failure e :: post ->
  Forall calm pre ->
  e <> EINTR ->
  exists w1,
    cgo_epoll_wait_loop (script_rounds pre) epfd freeack_ptr w = Looping w1
    /\ effect freeack_ptr (existsb is_ready pre) (all_events pre)
         (mem w) (mem w1)
    /\ forall more,
         cgo_epoll_wait_loop (script_rounds pre + S more) epfd freeack_ptr w
         = Returned e (failed_wait epfd e post w1).
Proof.
  intros Hreg Hk Hcalm Hne.
  destruct (drains_script epfd freeack_ptr (Failure e :: post) pre w)
    as (w1 & Hloop & Hk1 & _ & Heff); try done.
  exists w1. split; [done|]. split; [done|].
  intros more. rewrite loop_plus, Hloop. simpl.
  rewrite (loop_body_failure _ _ _ _ _ Hk1). by rewrite decide_False.
Qed.

(** ** The theorems at concrete worlds *)

(** 1025 ready descriptors take two waits, of 1024 events and of one, each
    with its store. *)
Example crowded_two_batches :
  exists w,
    cgo_epoll_wait_loop 2 3 Scenario.ack Witness.crowded = Looping w
    /\ waits_and_stores (log w)
       = [EpollWait 3 1024 (-1) 1024; Store (Ack Scenario.ack) 1;
          EpollWait 3 1024 (-1) 1; Store (Ack Scenario.ack) 1].
Proof. eexists. split; vm_compute; reflexivity. Qed.

Lemma C2_ack_after_batch_witness :
  is_Some (mem Scenario.start !! Ack Scenario.ack)
  /\ exists w3,
       loop_body 3 Scenario.ack Scenario.start = Ok None w3
       /\ mem w3 !! ConnState Scenario.cellA = Some STATE_REMOTE_CLOSED
       /\ mem w3 !! ConnState Scenario.cellB = Some STATE_REMOTE_CLOSED
       /\ mem w3 !! ConnState Scenario.cellC = Some STATE_CLOSED
       /\ mem w3 !! Ack Scenario.ack = Some 1.
Proof.
  assert (Hack : is_Some (mem Scenario.start !! Ack Scenario.ack)).
  { exists 0. vm_compute. reflexivity. }
  split; [exact Hack|].
  destruct (C2_ack_after_batch 3 Scenario.ack Scenario.start Scenario.batch [])
    as (w2 & evacts & _ & _ & _ & _ & _ & _ & _ & Hbody & _ & Heff & Hone & _).
  - reflexivity.
  - repeat first [apply Forall_cons_2 | apply Forall_nil_2];
      (eexists; split;
        [vm_compute; reflexivity | right; eexists; vm_compute; reflexivity]).
  - exact Hack.
  - eexists. split; [exact Hbody|].
    split; [rewrite (Heff (ConnState Scenario.cellA)); vm_compute; reflexivity|].
    split; [rewrite (Heff (ConnState Scenario.cellB)); vm_compute; reflexivity|].
    split; [rewrite (Heff (ConnState Scenario.cellC)); vm_compute; reflexivity|].
    exact Hone.
Defined.

Lemma C3_null_slot_skipped_witness :
  mem Witness.torn_down !! Slot (data_ptr Witness.hupA) = Some NULL
  /\ handle_event Witness.hupA Witness.torn_down
     = Ok tt (record (Load (Slot Scenario.slotA) NULL) Witness.torn_down).
Proof.
  assert (Hnull : mem Witness.torn_down !! Slot (data_ptr Witness.hupA)
                  = Some NULL) by (vm_compute; reflexivity).
  split; [exact Hnull|].
  destruct (C3_null_slot_skipped Witness.hupA [] Witness.torn_down Hnull)
    as (Hskip & _).
  exact Hskip.
Defined.

Lemma C4_returns_only_fatal_error_witness :
  cgo_epoll_wait_loop 2 3 Scenario.ack Witness.failing
  = Returned 9
      (failed_wait 3 9 [Ready Scenario.batch]
         (interrupted 1 3 [Failure 9; Ready Scenario.batch] Witness.failing))
  /\ forall rounds e w',
       cgo_epoll_wait_loop rounds 3 Scenario.ack Scenario.start
       <> Returned e w'.
Proof.
  split.
  - destruct (C4_returns_only_fatal_error 3 Scenario.ack Witness.failing)
      as (_ & Hfatal & _).
    apply (Hfatal 1%nat
             (interrupted 1 3 [Failure 9; Ready Scenario.batch] Witness.failing)
             9 [Ready Scenario.batch] 0%nat).
    + vm_compute. reflexivity.
    + reflexivity.
    + unfold EINTR. lia.
  - destruct (C4_returns_only_fatal_error 3 Scenario.ack Scenario.start)
      as (_ & _ & Hcalm).
    apply Hcalm. repeat constructor.
Defined.

Lemma C5_interrupted_wait_retried_witness :
  cgo_epoll_wait_loop 5 3 Scenario.ack Witness.interrupted5
  = Looping (interrupted 5 3 [Ready Scenario.batch] Witness.interrupted5).
Proof.
  destruct (C5_interrupted_wait_retried 5 3 Scenario.ack Witness.interrupted5
              [Ready Scenario.batch]) as (Hloop & _).
  - reflexivity.
  - exact Hloop.
Defined.

Lemma C6_cas_iff_close_signalled_witness :
  handle_event Witness.hupA Scenario.start
  = handle_event Witness.errA Scenario.start
  /\ handle_event Witness.inA Scenario.start
     = Ok tt (record (Load (Slot Scenario.slotA) Scenario.cellA)
                Scenario.start).
Proof.
  assert (Hslot : mem Scenario.start !! Slot Scenario.slotA
                  = Some Scenario.cellA) by (vm_compute; reflexivity).
  assert (Hnn : Scenario.cellA <> NULL) by (vm_compute; discriminate).
  split.
  - destruct (C6_cas_iff_close_signalled Witness.errA Scenario.start
                Scenario.cellA Hslot Hnn) as (_ & _ & _ & Hsame).
    apply Hsame.
    + reflexivity.
    + right. left. vm_compute. discriminate.
    + left. vm_compute. discriminate.
  - destruct (C6_cas_iff_close_signalled Witness.inA Scenario.start
                Scenario.cellA Hslot Hnn) as (_ & Hnone & _).
    apply Hnone. intros [H|[H|H]]; vm_compute in H; by apply H.
Defined.

Lemma C7_hangup_idempotent_witness :
  exists w1 w2,
    handle_event Witness.hupA Scenario.start = Ok tt w1
    /\ for_events [Witness.hupA; Witness.hupA; Witness.errA] Scenario.start
       = Ok tt w2
    /\ mem w2 = mem w1
    /\ mem w1 !! ConnState Scenario.cellA = Some STATE_REMOTE_CLOSED.
Proof.
  destruct (C7_hangup_idempotent Witness.hupA [Witness.hupA; Witness.errA]
              Scenario.cellA Scenario.start)
    as (w1 & w2 & Hone & Hall & _ & Hrc & _ & Hsame & _).
  - vm_compute. discriminate.
  - vm_compute. reflexivity.
  - repeat first [apply Forall_cons_2 | apply Forall_nil_2].
    + split; [vm_compute; reflexivity|]. left. vm_compute. discriminate.
    + split; [vm_compute; reflexivity|]. left. vm_compute. discriminate.
    + split; [vm_compute; reflexivity|]. right. left. vm_compute. discriminate.
  - exists w1, w2. auto.
Defined.

Lemma C9_batches_of_at_most_max_events_witness :
  exists w',
    cgo_epoll_wait_loop 2 3 Scenario.ack Witness.crowded = Looping w'
    /\ kernel w' = [].
Proof.
  destruct (C9_batches_of_at_most_max_events 3 Scenario.ack Witness.crowded
              (replicate 1025 Witness.hupA) [])
    as (_ & (w' & acts & Hloop & Hk & _) & _).
  - reflexivity.
  - apply Forall_replicate. exists Scenario.cellA.
    split; [vm_compute; reflexivity|]. right. exists STATE_OK.
    vm_compute. reflexivity.
  - exists 0. vm_compute. reflexivity.
  - exists w'. split; [exact Hloop | exact Hk].
Defined.

Lemma C10_never_returns_success_witness :
  Forall errno_set (kernel Witness.failing)
  /\ (9 : Z) <> 0.
Proof.
  assert (Hset : Forall errno_set (kernel Witness.failing)).
  { repeat constructor; simpl; unfold EINTR; lia. }
  split; [exact Hset|].
  destruct (C10_never_returns_success 2 3 Scenario.ack Witness.failing 9
              (failed_wait 3 9 [Ready Scenario.batch]
                 (interrupted 1 3 [Failure 9; Ready Scenario.batch]
                    Witness.failing)) Hset)
    as (Hnz & _).
  - vm_compute. reflexivity.
  - exact Hnz.
Defined.

(** Registration at the concrete worlds. *)
Ltac mapped_here :=
  eexists; split;
    [vm_compute; reflexivity | right; eexists; vm_compute; reflexivity].

Ltac registered_here :=
  split;
    [repeat first [apply Forall_cons_2 | apply Forall_nil_2];
       simpl; try exact I;
       repeat first [apply Forall_cons_2 | apply Forall_nil_2]; mapped_here
    | eexists; vm_compute; reflexivity].

Lemma X2_registered_run_never_faults_witness :
  registered Scenario.ack Witness.failing
  /\ forall x,
       cgo_epoll_wait_loop 4 3 Scenario.ack Witness.failing <> Crashed x.
Proof.
  assert (Hreg : registered Scenario.ack Witness.failing) by registered_here.
  split; [exact Hreg|].
  destruct (X2_registered_run_never_faults 4 3 Scenario.ack Witness.failing
              Hreg) as (Hnc & _).
  exact Hnc.
Defined.

Lemma X3_log_is_rounds_witness :
  exists acts,
    did acts Scenario.start
      (status_world (cgo_epoll_wait_loop 2 3 Scenario.ack Scenario.start))
    /\ rounds_log 3 Scenario.ack (kernel Scenario.start) acts
         (kernel (status_world
                    (cgo_epoll_wait_loop 2 3 Scenario.ack Scenario.start))).
Proof.
  apply X3_log_is_rounds. registered_here.
Defined.

Lemma X4_batch_effect_witness :
  exists w2,
    for_events Scenario.batch Witness.woken = Ok tt w2
    /\ forall l, mem w2 !! l = marked Scenario.memory Scenario.batch l.
Proof.
  apply (X4_batch_effect Scenario.batch Witness.woken).
  repeat first [apply Forall_cons_2 | apply Forall_nil_2]; mapped_here.
Defined.

Lemma X5_batch_order_irrelevant_witness :
  exists w2 w2',
    for_events [Witness.hupA; Witness.errA] Scenario.start = Ok tt w2
    /\ for_events [Witness.errA; Witness.hupA; Witness.hupA] Scenario.start
       = Ok tt w2'
    /\ mem w2 = mem w2'.
Proof.
  apply X5_batch_order_irrelevant.
  - repeat first [apply Forall_cons_2 | apply Forall_nil_2]; mapped_here.
  - intros ev. rewrite !elem_of_cons, !elem_of_nil. tauto.
Defined.

Lemma X6_run_uses_up_store_witness :
  exists w',
    cgo_epoll_wait_loop 6 3 Scenario.ack Witness.interrupted5 = Looping w'
    /\ kernel w' = []
    /\ forall more,
         cgo_epoll_wait_loop (6 + S more) 3 Scenario.ack Witness.interrupted5
         = Parked w'.
Proof.
  destruct (X6_run_uses_up_store 3 Scenario.ack Witness.interrupted5)
    as (w' & Hloop & Hk & _ & Hpark).
  - registered_here.
  - repeat first [apply Forall_cons_2 | apply Forall_nil_2]; simpl; done.
  - exists w'. split; [exact Hloop|]. split; [exact Hk | exact Hpark].
Defined.

Lemma X7_failure_after_batches_witness :
  exists w1,
    cgo_epoll_wait_loop 1 3 Scenario.ack Witness.failing = Looping w1
    /\ forall more,
         cgo_epoll_wait_loop (1 + S more) 3 Scenario.ack Witness.failing
         = Returned 9 (failed_wait 3 9 [Ready Scenario.batch] w1).
Proof.
  destruct (X7_failure_after_batches 3 Scenario.ack Witness.failing
              [Failure EINTR] 9 [Ready Scenario.batch])
    as (w1 & Hloop & _ & Hret).
  - registered_here.
  - reflexivity.
  - repeat first [apply Forall_cons_2 | apply Forall_nil_2]; simpl; done.
  - unfold EINTR. lia.
  - exists w1. split; [exact Hloop | exact Hret].
Defined.
